(** * Vortex: the particle field of the landing page, and its specification

    The component under study is the canvas animation [Vortex]
    (a React function component).  Its state is a flat [Float32Array]
    of nine numbers per particle, three mutable references holding the
    global colour state, the canvas size, the spawn centre and the frame
    counter.  Every animation frame runs [updateAndDrawParticles] over the
    whole buffer.

    Numbers.  Every finite IEEE-754 number is a rational, so the JavaScript
    numbers of the component are embedded as [Q].  Arithmetic is carried out
    exactly: the rounding of each operation to binary64, and of each store into
    the buffer to binary32, is not part of this development.  The two values
    that are not rationals, NaN and the infinities, can only come from a
    division or a remainder by zero, or from reading [undefined] past the
    end of the buffer; these operations are partial here ([option]).

    Environment.  [Math.random], the simplex noise function returned by
    [createNoise3D], [Math.cos] and [Math.sin] are taken as an environment
    record.  [Math.random] is a stream of draws indexed by the number of
    calls made so far, which the state counts. *)

From stdpp Require Import base option list.
From Stdlib Require Import ZArith QArith Qround Qabs Qminmax Qpower Lia Lqa.
From Stdlib Require String.

Open Scope Q_scope.

(** ** Numbers *)

Definition Qltb (a b : Q) : bool := negb (Qle_bool b a).

(** Truncation toward zero, as in the definition of the [%] operator. *)
Definition Qtrunc (q : Q) : Z := Z.quot (Qnum q) (Zpos (Qden q)).

(** [a % b] of JavaScript on finite numbers: NaN for a zero divisor, else
    [a - b * trunc (a / b)], which has the sign of the dividend. *)
Definition js_rem (a b : Q) : option Q :=
  if Qeq_bool b 0 then None else Some (a - b * inject_Z (Qtrunc (a / b))).

(** [a / b] of JavaScript on finite numbers: not a finite number for a zero
    divisor. *)
Definition js_div (a b : Q) : option Q :=
  if Qeq_bool b 0 then None else Some (a / b).

(** A count of frames as a number. *)
Definition Qnat (n : nat) : Q := inject_Z (Z.of_nat n).

(** The double nearest to pi, [Math.PI], is 884279719003555 / 2^48. *)
Definition Math_PI : Q := 884279719003555 # 281474976710656.

(** ** The memoised constants *)

Module constants.
Definition baseTTL : Q := 50.
Definition rangeTTL : Q := 150.
Definition rangeHue : Q := 100.
Definition noiseSteps : Q := 3.
Definition xOff : Q := 1 # 800.          (* 0.00125 *)
Definition yOff : Q := 1 # 800.          (* 0.00125 *)
Definition zOff : Q := 1 # 2000.         (* 0.0005 *)
Definition HALF_PI : Q := (1 # 2) * Math_PI.
Definition TAU : Q := 2 * Math_PI.
Definition TO_RAD : Q := Math_PI / 180.
Definition COLOR_CHANGE_INTERVAL : Z := 20000.
Definition TRANSITION_SPEED : Q := 1 # 50.  (* 0.02 *)
End constants.

Definition particlePropCount : nat := 9.

(** ** The pure helpers of [utils] *)

Definition fadeInOut (t m : Q) : option Q :=
  let hm := (1 # 2) * m in
  r ← js_rem (t + hm) m;
  js_div (Qabs (r - hm)) hm.

Definition lerp (n1 n2 speed : Q) : Q := (1 - speed) * n1 + speed * n2.

(** ** Props, environment and state *)

Record VortexProps := mkProps {
  particleCount : nat;
  rangeY : Q;
  baseSpeed : Q;
  rangeSpeed : Q;
  baseRadius : Q;
  rangeRadius : Q;
  baseHue : Q }.


Record Env := mkEnv {
  Math_random : nat -> Q;           (* the n-th call of Math.random() *)
  noise3D : Q -> Q -> Q -> Q;
  Math_cos : Q -> Q;
  Math_sin : Q -> Q }.

(** What the language guarantees of the environment. *)
Record env_ok (E : Env) : Prop := {
  random_range : forall n, 0 <= Math_random E n /\ Math_random E n < 1;
  cos_range : forall a, -1 <= Math_cos E a /\ Math_cos E a <= 1;
  sin_range : forall a, -1 <= Math_sin E a /\ Math_sin E a <= 1 }.

(** What the noise library promises of its output. *)
Definition noise_ok (E : Env) : Prop :=
  forall a b c, -1 <= noise3D E a b c /\ noise3D E a b c <= 1.

Record Vortex := mkVortex {
  particleProps : list Q;           (* the Float32Array *)
  canvas_width : N;
  canvas_height : N;
  center : Q * Q;
  colorTransitionRef : Q;
  targetColorRef : Q;
  lastColorChangeRef : Z;
  tick : Z;
  randomCalls : nat }.              (* calls of Math.random() so far *)

Definition with_particleProps (buf : list Q) (st : Vortex) : Vortex :=
  mkVortex buf (canvas_width st) (canvas_height st) (center st)
    (colorTransitionRef st) (targetColorRef st) (lastColorChangeRef st)
    (tick st) (randomCalls st).

Definition with_randomCalls (n : nat) (st : Vortex) : Vortex :=
  mkVortex (particleProps st) (canvas_width st) (canvas_height st) (center st)
    (colorTransitionRef st) (targetColorRef st) (lastColorChangeRef st)
    (tick st) n.

(** What a frame does to the outside: the calls of [initParticle] and the
    line segments stroked on the canvas.  The alpha of a stroke is [None]
    when [fadeInOut] produced no finite number. *)
Inductive Effect : Type :=
| Spawn (i : nat)
| Stroke (x y x2 y2 lineWidth hue : Q) (alpha : option Q).

Definition N2Q (n : N) : Q := inject_Z (Z.of_N n).

(** [target.set(source, offset)] of a typed array: a RangeError when the
    source does not fit. *)
Definition typed_set (target source : list Q) (offset : nat) : option (list Q) :=
  if decide (offset + length source <= length target)%nat
  then Some (list_inserts offset source target)
  else None.

Section Component.

Context (E : Env) (P : VortexProps).

Definition particlePropsLength : nat := (particleCount P * particlePropCount)%nat.

(** *** utils *)

Definition rand (n : Q) (k : nat) : Q := n * Math_random E k.
Definition randRange (n : Q) (k : nat) : Q := n - (n * Math_random E k * 2).
Definition getNextColor (k : nat) : Q := inject_Z (Qfloor (Math_random E k * 360)).

(** *** initParticle *)

Definition initParticle (i : nat) (st : Vortex) : option Vortex :=
  let k := randomCalls st in
  let x := rand (N2Q (canvas_width st)) k in
  let y := snd (center st) + randRange (rangeY P) (k + 1) in
  buf ← typed_set (particleProps st)
          [ x; y; 0; 0; 0;
            constants.baseTTL + rand constants.rangeTTL (k + 2);
            baseSpeed P + rand (rangeSpeed P) (k + 3);
            baseRadius P + rand (rangeRadius P) (k + 4);
            colorTransitionRef st + rand constants.rangeHue (k + 5) ] i;
  Some (with_randomCalls (k + 6) (with_particleProps buf st)).

(** *** drawParticle *)

Definition drawParticle (x y x2 y2 life ttl radius hue : Q) : list Effect :=
  match fadeInOut life ttl with
  | Some alpha =>
      if Qltb alpha (1 # 100) then [] else [Stroke x y x2 y2 radius hue (Some alpha)]
  | None => [Stroke x y x2 y2 radius hue None]
  end.

(** *** The body of the loop of updateAndDrawParticles *)

Definition out_of_box (st : Vortex) (x y : Q) : bool :=
  Qltb x (-50) || Qltb (N2Q (canvas_width st) + 50) x
  || Qltb y (-50) || Qltb (N2Q (canvas_height st) + 50) y.

Definition updateParticle (i : nat) (st : Vortex) : option (Vortex * list Effect) :=
  let i2 := (1 + i)%nat in let i3 := (2 + i)%nat in let i4 := (3 + i)%nat in
  let i5 := (4 + i)%nat in let i6 := (5 + i)%nat in let i7 := (6 + i)%nat in
  let i8 := (7 + i)%nat in let i9 := (8 + i)%nat in
  let buf := particleProps st in
  x ← buf !! i;
  y ← buf !! i2;
  if out_of_box st x y then
    st' ← initParticle i st;
    Some (st', [Spawn i])
  else
    let n := noise3D E (x * constants.xOff) (y * constants.yOff)
               (inject_Z (tick st) * constants.zOff)
             * constants.noiseSteps * constants.TAU in
    pvx ← buf !! i3;
    pvy ← buf !! i4;
    let vx := lerp pvx (Math_cos E n) (1 # 2) in
    let vy := lerp pvy (Math_sin E n) (1 # 2) in
    speed ← buf !! i7;
    let x2 := x + vx * speed in
    let y2 := y + vy * speed in
    hue ← buf !! i9;
    let buf :=
      if Qltb 1 (Qabs (hue - colorTransitionRef st))
      then <[i9 := lerp hue (colorTransitionRef st) (1 # 10)]> buf
      else buf in
    life ← buf !! i5;
    ttl ← buf !! i6;
    radius ← buf !! i8;
    hue' ← buf !! i9;
    let strokes := drawParticle x y x2 y2 life ttl radius hue' in
    let buf := <[i := x2]> buf in
    let buf := <[i2 := y2]> buf in
    let buf := <[i3 := vx]> buf in
    let buf := <[i4 := vy]> buf in
    life ← buf !! i5;
    let buf := <[i5 := life + 1]> buf in
    life' ← buf !! i5;
    ttl' ← buf !! i6;
    if Qltb ttl' life' then
      st' ← initParticle i (with_particleProps buf st);
      Some (st', strokes ++ [Spawn i])
    else
      Some (with_particleProps buf st, strokes).

(** The loop [for (let i = 0; i < particlePropsLength; i += particlePropCount)]
    visits the offsets [0, 9, ..., 9 * (particleCount - 1)]. *)
Definition offsets : list nat :=
  map (fun k => (k * particlePropCount)%nat) (seq 0 (particleCount P)).

Fixpoint forParticles (offs : list nat) (st : Vortex)
  : option (Vortex * list Effect) :=
  match offs with
  | [] => Some (st, [])
  | i :: offs' =>
      '(st1, out1) ← updateParticle i st;
      '(st2, out2) ← forParticles offs' st1;
      Some (st2, out1 ++ out2)
  end.

(** *** updateAndDrawParticles *)

Definition updateColor (currentTime : Z) (st : Vortex) : Vortex :=
  let st :=
    if (constants.COLOR_CHANGE_INTERVAL <=? currentTime - lastColorChangeRef st)%Z
    then mkVortex (particleProps st) (canvas_width st) (canvas_height st) (center st)
           (colorTransitionRef st) (getNextColor (randomCalls st)) currentTime
           (tick st) (S (randomCalls st))
    else st in
  mkVortex (particleProps st) (canvas_width st) (canvas_height st) (center st)
    (lerp (colorTransitionRef st) (targetColorRef st) constants.TRANSITION_SPEED)
    (targetColorRef st) (lastColorChangeRef st) (tick st) (randomCalls st).

Definition updateAndDrawParticles (currentTime : Z) (st : Vortex)
  : option (Vortex * list Effect) :=
  forParticles offsets (updateColor currentTime st).

(** *** The effect of mounting: allocation, resize, the frame *)

Definition resize (innerWidth innerHeight : N) (st : Vortex) : Vortex :=
  mkVortex (particleProps st) innerWidth innerHeight
    ((1 # 2) * N2Q innerWidth, (1 # 2) * N2Q innerHeight)
    (colorTransitionRef st) (targetColorRef st) (lastColorChangeRef st)
    (tick st) (randomCalls st).

(** [tick++] *)
Definition next_tick (st : Vortex) : Vortex :=
  mkVortex (particleProps st) (canvas_width st) (canvas_height st)
    (center st) (colorTransitionRef st) (targetColorRef st)
    (lastColorChangeRef st) (tick st + 1) (randomCalls st).

(** [draw]: of its calls on the canvas only the strokes made by
    [updateAndDrawParticles] are kept; clearing the canvas and compositing it
    onto itself do not touch the state.  [now] is the value of [Date.now()]. *)
Definition draw (now : Z) (st : Vortex) : option (Vortex * list Effect) :=
  updateAndDrawParticles now st.

(** One run of [animate]: [tick++], then [draw]; the request for the next
    animation frame is the next [Frame] event of a run. *)
Definition animate (now : Z) (st : Vortex) : option (Vortex * list Effect) :=
  draw now (next_tick st).

Fixpoint initAll (offs : list nat) (st : Vortex) : option Vortex :=
  match offs with
  | [] => Some st
  | i :: offs' => st' ← initParticle i st; initAll offs' st'
  end.

(** The state after [new Float32Array(particlePropsLength)] and the
    assignments to the colour references: a zeroed buffer, [center] still
    [[0, 0]], the canvas at the size of a canvas element that was never
    sized, 300 by 150. *)
Definition allocate (now : Z) : Vortex :=
  mkVortex (replicate particlePropsLength 0) 300 150 (0, 0)
    (baseHue P) (baseHue P) now 0 0.

(** The state in which the effect leaves the component before the first
    frame: the canvas sized to the window and every slot initialised. *)
Definition mount (innerWidth innerHeight : N) (now : Z) : option Vortex :=
  initAll offsets (resize innerWidth innerHeight (allocate now)).

(** *** Runs *)

Inductive Event : Type :=
| Frame (now : Z)
| Resize (innerWidth innerHeight : N).

Definition handle (ev : Event) (st : Vortex) : option (Vortex * list Effect) :=
  match ev with
  | Frame now => animate now st
  | Resize w h => Some (resize w h st, [])
  end.

(** A run returns the final state and the effects of each event. *)
Fixpoint run (evs : list Event) (st : Vortex) : option (Vortex * list (list Effect)) :=
  match evs with
  | [] => Some (st, [])
  | ev :: evs' =>
      '(st1, out) ← handle ev st;
      '(st2, outs) ← run evs' st1;
      Some (st2, out :: outs)
  end.

Inductive reachable : Vortex -> Prop :=
| reachable_mount w h now st :
    mount w h now = Some st -> reachable st
| reachable_handle ev st st' out :
    reachable st -> handle ev st = Some (st', out) -> reachable st'.

End Component.

(** ** The buffer read as rows of particles

    The proofs read the flat buffer as a list of rows of nine fields.  The
    functions of this part are obtained from [initParticle] and
    [updateParticle] by carrying out their reads and writes on one row;
    [updateParticle_at] and [forParticles_rows] below prove that they compute
    what the code on the flat buffer computes. *)

Record Particle := mkParticle {
  p_x : Q; p_y : Q; p_vx : Q; p_vy : Q; p_life : Q; p_ttl : Q;
  p_speed : Q; p_radius : Q; p_hue : Q }.

Definition row (p : Particle) : list Q :=
  [p_x p; p_y p; p_vx p; p_vy p; p_life p; p_ttl p; p_speed p; p_radius p; p_hue p].

Definition rows (ps : list Particle) : list Q := concat (map row ps).

Definition blank : Particle := mkParticle 0 0 0 0 0 0 0 0 0.

Definition is_spawn (i : nat) (e : Effect) : bool :=
  match e with
  | Spawn j => Nat.eqb i j
  | Stroke _ _ _ _ _ _ _ => false
  end.

(** How many times [initParticle] was called on offset [i]. *)
Fixpoint count_spawn (i : nat) (out : list Effect) : nat :=
  match out with
  | [] => 0
  | e :: out' => ((if is_spawn i e then 1 else 0) + count_spawn i out')%nat
  end.

Definition stroke_alpha_ok (e : Effect) : Prop :=
  match e with
  | Spawn _ => True
  | Stroke _ _ _ _ _ _ alpha => exists a, alpha = Some a /\ 1 # 100 <= a /\ a <= 1
  end.

Section View.

Context (E : Env) (P : VortexProps).

(** The row written by [initParticle] in state [st]. *)
Definition spawned (st : Vortex) : Particle :=
  let k := randomCalls st in
  mkParticle (rand E (N2Q (canvas_width st)) k)
    (snd (center st) + randRange E (rangeY P) (k + 1))
    0 0 0
    (constants.baseTTL + rand E constants.rangeTTL (k + 2))
    (baseSpeed P + rand E (rangeSpeed P) (k + 3))
    (baseRadius P + rand E (rangeRadius P) (k + 4))
    (colorTransitionRef st + rand E constants.rangeHue (k + 5)).

Definition angle (st : Vortex) (p : Particle) : Q :=
  noise3D E (p_x p * constants.xOff) (p_y p * constants.yOff)
    (inject_Z (tick st) * constants.zOff)
  * constants.noiseSteps * constants.TAU.

Definition eased_hue (st : Vortex) (p : Particle) : Q :=
  if Qltb 1 (Qabs (p_hue p - colorTransitionRef st))
  then lerp (p_hue p) (colorTransitionRef st) (1 # 10)
  else p_hue p.

(** The row after the commit of position and direction and the increment
    of the age. *)
Definition moved (st : Vortex) (p : Particle) : Particle :=
  let vx := lerp (p_vx p) (Math_cos E (angle st p)) (1 # 2) in
  let vy := lerp (p_vy p) (Math_sin E (angle st p)) (1 # 2) in
  mkParticle (p_x p + vx * p_speed p) (p_y p + vy * p_speed p) vx vy
    (p_life p + 1) (p_ttl p) (p_speed p) (p_radius p) (eased_hue st p).

Definition strokes_of (st : Vortex) (p : Particle) : list Effect :=
  let q := moved st p in
  drawParticle (p_x p) (p_y p) (p_x q) (p_y q) (p_life p) (p_ttl p)
    (p_radius p) (p_hue q).

Definition expired (q : Particle) : bool := Qltb (p_ttl q) (p_life q).

(** One iteration of the loop on the row at offset [i]: the new row, the
    new count of random draws and the effects. *)
Definition step_slot (i : nat) (st : Vortex) (p : Particle)
  : Particle * nat * list Effect :=
  if out_of_box st (p_x p) (p_y p) then
    (spawned st, (randomCalls st + 6)%nat, [Spawn i])
  else if expired (moved st p) then
    (spawned st, (randomCalls st + 6)%nat, strokes_of st p ++ [Spawn i])
  else
    (moved st p, randomCalls st, strokes_of st p).

(** The loop on the rows from index [k] on. *)
Fixpoint sweep (k : nat) (st : Vortex) (ps : list Particle)
  : list Particle * nat * list Effect :=
  match ps with
  | [] => ([], randomCalls st, [])
  | p :: ps' =>
      let '(p', r, out) := step_slot (k * particlePropCount) st p in
      let '(ps'', r', out') := sweep (S k) (with_randomCalls r st) ps' in
      (p' :: ps'', r', out ++ out')
  end.

(** The rows written by [n] successive calls of [initParticle]. *)
Fixpoint spawns (n : nat) (st : Vortex) : list Particle :=
  match n with
  | O => []
  | S n' => spawned st :: spawns n' (with_randomCalls (randomCalls st + 6) st)
  end.

(** The state on which a frame at time [now] runs its loop. *)
Definition frame_start (now : Z) (st : Vortex) : Vortex :=
  updateColor E now (next_tick st).

(** *** Invariants *)

Definition in_unit (v : Q) : Prop := -1 <= v /\ v <= 1.

Definition drawn_from (base range v : Q) : Prop :=
  exists r, 0 <= r /\ r < 1 /\ v == base + range * r.

(** What holds of every row between two events; the hue is bounded by
    the bounds [lo] and [hi] of the global hue. *)
Record good (lo hi : Q) (p : Particle) : Prop := {
  good_vx : in_unit (p_vx p);
  good_vy : in_unit (p_vy p);
  good_life : 0 <= p_life p;
  good_ttl : 50 <= p_ttl p /\ p_ttl p < 200;
  good_speed : drawn_from (baseSpeed P) (rangeSpeed P) (p_speed p);
  good_radius : drawn_from (baseRadius P) (rangeRadius P) (p_radius p);
  good_hue : lo <= p_hue p /\ p_hue p < hi + 100 }.

Definition hue_between (lo hi : Q) (st : Vortex) : Prop :=
  (lo <= colorTransitionRef st /\ colorTransitionRef st <= hi)
  /\ (lo <= targetColorRef st /\ targetColorRef st <= hi).

Record wf (lo hi : Q) (st : Vortex) : Prop := {
  wf_rows : exists ps, particleProps st = rows ps
              /\ length ps = particleCount P /\ Forall (good lo hi) ps;
  wf_hue : hue_between lo hi st }.

(** The buffer is made of [particleCount] rows. *)
Definition shaped (st : Vortex) : Prop :=
  exists ps, particleProps st = rows ps /\ length ps = particleCount P.



End View.

(** ** Concrete scenarios *)

(** An environment in which every draw is [r], the noise is 0 and the
    direction is that of the angle 0, the only angle then asked for. *)
Definition steady (r : Q) : Env :=
  mkEnv (fun _ => r) (fun _ _ _ => 0) (fun _ => 1) (fun _ => 0).

(** The props of the end-to-end scenario: ten particles of speed 1 that
    does not vary, a base hue of 0, the defaults elsewhere. *)
Definition scenario : VortexProps :=
  {| particleCount := 10; rangeY := 400; baseSpeed := 1; rangeSpeed := 0;
     baseRadius := 1; rangeRadius := 2; baseHue := 0 |}.

(** One particle that does not move. *)
Definition still : VortexProps :=
  {| particleCount := 1; rangeY := 400; baseSpeed := 0; rangeSpeed := 0;
     baseRadius := 1; rangeRadius := 2; baseHue := 220 |}.


(** An environment that sends the first particle to the right.  The first
    draw, the x of slot 0 as a fraction of the width, is 0.995; the next two,
    for its y and its lifetime, are 0.5; all later draws are 0, which spawns
    the other particles below the box.  The noise is 0, so that every angle
    is 0, of cosine 1 and sine 0. *)
Definition drifting : Env :=
  mkEnv (fun n => match n with
                  | O => 199 # 200
                  | S O | S (S O) => 1 # 2
                  | S (S (S _)) => 0
                  end)
    (fun _ _ _ => 0) (fun _ => 1) (fun _ => 0).

(** Whether, in the scenario run for 52 frames in that environment, the x
    of slot 0 ends at 150.5 + 2^-52, above 150. *)
Definition exits_right : bool :=
  match mount drifting scenario 100 100 0 with
  | Some st0 =>
      match run drifting scenario (map Frame (replicate 52 0%Z)) st0 with
      | Some (st, _) =>
          match particleProps st !! 0%nat with
          | Some x =>
              Qeq_bool x ((301 # 2) + (1 # 4503599627370496)) && Qltb 150 x
          | None => false
          end
      | None => false
      end
  | None => false
  end.

(** A row within one step of the box of a canvas of width [W], for steps of
    at most [s]. *)
Definition tame (W : N) (s : Q) (p : Particle) : Prop :=
  in_unit (p_vx p) /\ Qabs (p_speed p) <= s
  /\ -50 - s <= p_x p /\ p_x p <= N2Q W + 50 + s.

(** The state after mounting in a window of [w] by [h] at time [now]. *)
Definition mounted (E : Env) (P : VortexProps) (w h : N) (now : Z) : Vortex :=
  default (allocate P now) (mount E P w h now).

(** ** Vocabulary for the properties of frames and runs *)

(** The nine cells of the slot of index [k], at the offsets at which the
    loop reads them. *)
Definition slot (k : nat) (st : Vortex) : option Particle :=
  let i := (k * particlePropCount)%nat in
  let buf := particleProps st in
  x ← buf !! i;
  y ← buf !! (1 + i)%nat;
  vx ← buf !! (2 + i)%nat;
  vy ← buf !! (3 + i)%nat;
  life ← buf !! (4 + i)%nat;
  ttl ← buf !! (5 + i)%nat;
  speed ← buf !! (6 + i)%nat;
  radius ← buf !! (7 + i)%nat;
  hue ← buf !! (8 + i)%nat;
  Some (mkParticle x y vx vy life ttl speed radius hue).

Definition is_stroke (e : Effect) : bool :=
  match e with
  | Spawn _ => false
  | Stroke _ _ _ _ _ _ _ => true
  end.

Definition is_call (e : Effect) : bool :=
  match e with
  | Spawn _ => true
  | Stroke _ _ _ _ _ _ _ => false
  end.

Fixpoint count_effects (f : Effect -> bool) (out : list Effect) : nat :=
  match out with
  | [] => 0
  | e :: out' => ((if f e then 1 else 0) + count_effects f out')%nat
  end.

(** The strokes of a frame and its calls of [initParticle]. *)
Definition count_strokes (out : list Effect) : nat := count_effects is_stroke out.
Definition count_calls (out : list Effect) : nat := count_effects is_call out.

(** The test that opens [updateAndDrawParticles]. *)
Definition color_due (now : Z) (st : Vortex) : bool :=
  (constants.COLOR_CHANGE_INTERVAL <=? now - lastColorChangeRef st)%Z.

Fixpoint count_frames (evs : list Event) : nat :=
  match evs with
  | [] => 0
  | Frame _ :: evs' => S (count_frames evs')
  | Resize _ _ :: evs' => count_frames evs'
  end.

(** The size of the window after the resizes of [evs], from [(w, h)]. *)
Fixpoint last_size (evs : list Event) (w h : N) : N * N :=
  match evs with
  | [] => (w, h)
  | Frame _ :: evs' => last_size evs' w h
  | Resize w' h' :: evs' => last_size evs' w' h'
  end.

Definition integral (q : Q) : Prop := exists z : Z, q == inject_Z z.

(** The age is a count of frames and has not passed the lifetime. *)
Definition aged (p : Particle) : Prop :=
  (exists n, p_life p == Qnat n) /\ p_life p <= p_ttl p.

(** The slot of a stroke: the stroke starts at the position of the row, ends
    where the row moves to, and has its radius as line width. *)
Definition stroke_of_row (p : Particle) (e : Effect) : Prop :=
  match e with
  | Spawn _ => True
  | Stroke x y x2 y2 lineWidth hue alpha =>
      x = p_x p /\ y = p_y p /\ lineWidth = p_radius p
      /\ Qabs (x2 - x) <= Qabs (p_speed p) /\ Qabs (y2 - y) <= Qabs (p_speed p)
      /\ exists a, alpha = Some a /\ fadeInOut (p_life p) (p_ttl p) = Some a
  end.

(** The row is stroked by a frame: it passes the position test and its
    envelope is not below 0.01. *)
Definition visible (st : Vortex) (p : Particle) : bool :=
  negb (out_of_box st (p_x p) (p_y p))
  && match fadeInOut (p_life p) (p_ttl p) with
     | Some a => negb (Qltb a (1 # 100))
     | None => true
     end.

(** The row is respawned by a frame: it fails the position test, or its
    age, once incremented, exceeds its lifetime. *)
Definition doomed (st : Vortex) (p : Particle) : bool :=
  out_of_box st (p_x p) (p_y p) || Qltb (p_ttl p) (p_life p + 1).

Fixpoint count_rows (f : Particle -> bool) (ps : list Particle) : nat :=
  match ps with
  | [] => 0
  | p :: ps' => ((if f p then 1 else 0) + count_rows f ps')%nat
  end.

(** How many of the first [n] slots hold a row that satisfies [f]. *)
Fixpoint count_slots (f : Vortex -> Particle -> bool) (n : nat) (st : Vortex) : nat :=
  match n with
  | O => 0
  | S n' =>
      (count_slots f n' st
       + match slot n' st with
         | Some p => if f st p then 1 else 0
         | None => 0
         end)%nat
  end.

(** ** The hero section, which mounts the field

    [Hero] renders [<Vortex>] without props, hence with the defaults, and
    derives three texts from an optional project.  [a || b] on strings
    yields [b] when [a] is undefined or empty. *)

Module Project.
Import String.

Record CollabApp := mkCollabApp {
  app_id : string; app_title : string; icon : string; width : Q; height : Q }.

Record t := mk {
  id : string;
  title : string;
  text : string;
  backgroundUrl : string;
  iconUrl : string;
  imageUrl : string;
  videoUrl : string;
  heroTitle : string;
  heroSubtitle : string;
  collabApps : list CollabApp }.

End Project.

Module Hero.
Import String.

Definition or_else (a b : string) : string :=
  match a with
  | EmptyString => b
  | String _ _ => a
  end.

Definition defaultHeroTitle : string :=
  "Real results. Smart AI solutions. Built for ambitious brands.".

Definition defaultHeroSubtitle : string :=
  "Unleash the power of AI with Cryenx. Upgrade your productivity with Cryenx.".

(** [robot] is the imported asset. *)
Definition videoSrc (robot : string) (project : option Project.t) : string :=
  match project with
  | Some p => or_else (Project.videoUrl p) robot
  | None => robot
  end.

Definition heroTitle (project : option Project.t) : string :=
  match project with
  | Some p => or_else (Project.heroTitle p) defaultHeroTitle
  | None => defaultHeroTitle
  end.

Definition heroSubtitle (project : option Project.t) : string :=
  match project with
  | Some p => or_else (Project.heroSubtitle p) defaultHeroSubtitle
  | None => defaultHeroSubtitle
  end.

Definition isProjectPage (project : option Project.t) : bool :=
  match project with
  | Some _ => true
  | None => false
  end.


End Hero.

(** ** Concrete states *)

(** The field with no particle. *)
Definition vacant : VortexProps :=
  {| particleCount := 0; rangeY := 400; baseSpeed := 0; rangeSpeed := 3 # 2;
     baseRadius := 1; rangeRadius := 2; baseHue := 220 |}.

(** One particle that does not move, mounted at time 0 in a window of 100 by
    100 with every draw equal to 0.5, and the row of that particle. *)
Definition still_mounted : Vortex := mounted (steady (1 # 2)) still 100 100 0.

Definition newborn : Particle :=
  mkParticle (N2Q 100 * (1 # 2)) ((1 # 2) * N2Q 100 + (400 - 400 * (1 # 2) * 2))
    0 0 0 (50 + 150 * (1 # 2)) (0 + 0 * (1 # 2)) (1 + 2 * (1 # 2))
    (220 + 100 * (1 # 2)).


(** * Proofs *)

(** ** Facts on the numeric helpers *)

Lemma Qltb_lt a b : Qltb a b = true <-> a < b.
Proof.
  unfold Qltb. rewrite negb_true_iff.
  split; intros H.
  - apply Qnot_le_lt. intros Hle. apply Qle_bool_iff in Hle. congruence.
  - destruct (Qle_bool b a) eqn:E; [|reflexivity].
    apply Qle_bool_iff in E. lra.
Qed.

Lemma Qltb_ge a b : Qltb a b = false <-> b <= a.
Proof.
  unfold Qltb. rewrite negb_false_iff. apply Qle_bool_iff.
Qed.

Lemma Qeq_bool_false_neq a b : Qeq_bool a b = false <-> ~ a == b.
Proof.
  split; intros H.
  - intros E. apply Qeq_bool_iff in E. congruence.
  - destruct (Qeq_bool a b) eqn:E; [|reflexivity].
    apply Qeq_bool_iff in E. contradiction.
Qed.

Lemma Qtrunc_nonneg_floor q : 0 <= q -> Qtrunc q = Qfloor q.
Proof.
  destruct q as [n d]. unfold Qtrunc, Qfloor, Qle. simpl. intros H.
  apply Z.quot_div_nonneg; lia.
Qed.

Lemma Qfloor_unique q z : inject_Z z <= q -> q < inject_Z (z + 1) -> Qfloor q = z.
Proof.
  intros Hlo Hhi.
  pose proof (Qfloor_le q) as H1. pose proof (Qlt_floor q) as H2.
  assert (Hz1 : (z < Qfloor q + 1)%Z).
  { rewrite Zlt_Qlt. lra. }
  assert (Hz2 : (Qfloor q < z + 1)%Z).
  { rewrite Zlt_Qlt. lra. }
  lia.
Qed.

Lemma Qtrunc_unique q z :
  (0 <= z)%Z -> inject_Z z <= q -> q < inject_Z (z + 1) -> Qtrunc q = z.
Proof.
  intros Hz Hlo Hhi. rewrite Qtrunc_nonneg_floor.
  - by apply Qfloor_unique.
  - assert (0 <= inject_Z z) by (change 0 with (inject_Z 0); by rewrite <- Zle_Qle).
    lra.
Qed.

(** For a positive modulus and a dividend in [[k*m, (k+1)*m)], the remainder
    is the dividend less [k*m]. *)
Lemma js_rem_window a m (k : Z) :
  0 < m -> (0 <= k)%Z ->
  inject_Z k * m <= a -> a < inject_Z (k + 1) * m ->
  exists r, js_rem a m = Some r /\ r == a - inject_Z k * m.
Proof.
  intros Hm Hk Hlo Hhi. unfold js_rem.
  assert (Hne : ~ m == 0) by lra.
  apply Qeq_bool_false_neq in Hne as ->.
  eexists; split; [reflexivity|].
  assert (Ht : Qtrunc (a / m) = k).
  { apply Qtrunc_unique; [done| |].
    - apply Qle_shift_div_l; [done|lra].
    - apply Qlt_shift_div_r; [done|lra]. }
  rewrite Ht. ring.
Qed.

(** ** Reading and writing one row of the buffer *)

Lemma lookup_at (pre l : list Q) a : (pre ++ l) !! (a + length pre)%nat = l !! a.
Proof. rewrite lookup_app_r by lia. f_equal. lia. Qed.

Lemma lookup_at0 (pre l : list Q) : (pre ++ l) !! (length pre) = l !! 0%nat.
Proof. apply (lookup_at pre l 0). Qed.

Lemma insert_at (pre l : list Q) a v :
  <[(a + length pre)%nat := v]> (pre ++ l) = pre ++ <[a := v]> l.
Proof. rewrite Nat.add_comm. apply insert_app_r. Qed.

Lemma insert_at0 (pre l : list Q) v :
  <[length pre := v]> (pre ++ l) = pre ++ <[0%nat := v]> l.
Proof. apply (insert_at pre l 0). Qed.

Lemma typed_set_at (pre old new post : list Q) :
  length old = length new ->
  typed_set (pre ++ old ++ post) new (length pre) = Some (pre ++ new ++ post).
Proof.
  intros Hlen. unfold typed_set.
  rewrite decide_True by (rewrite !length_app; lia).
  f_equal.
  rewrite <- (Nat.add_0_r (length pre)).
  rewrite list_inserts_app_r.
  f_equal. by apply list_inserts_0_r.
Qed.

Ltac slot_reads :=
  repeat first
    [ rewrite lookup_at0 | rewrite lookup_at | rewrite insert_at0 | rewrite insert_at
    | progress cbn [lookup list_lookup mbind option_bind insert list_insert app] ].

Section Rows.

Context (E : Env) (P : VortexProps).

Local Abbreviation spawned := (spawned E P).
Local Abbreviation moved := (moved E).
Local Abbreviation strokes_of := (strokes_of E).
Local Abbreviation step_slot := (step_slot E P).
Local Abbreviation sweep := (sweep E P).

Lemma initParticle_at st pre old post :
  particleProps st = pre ++ old ++ post -> length old = 9%nat ->
  initParticle E P (length pre) st
  = Some (with_randomCalls (randomCalls st + 6)
            (with_particleProps (pre ++ row (spawned st) ++ post) st)).
Proof.
  intros Hbuf Hlen. unfold initParticle. rewrite Hbuf.
  rewrite (typed_set_at pre old _ post) by (rewrite Hlen; reflexivity).
  reflexivity.
Qed.

Lemma updateParticle_at st pre p post :
  particleProps st = pre ++ row p ++ post ->
  updateParticle E P (length pre) st =
    if out_of_box st (p_x p) (p_y p) then
      Some (with_randomCalls (randomCalls st + 6)
              (with_particleProps (pre ++ row (spawned st) ++ post) st),
            [Spawn (length pre)])
    else if expired (moved st p) then
      Some (with_randomCalls (randomCalls st + 6)
              (with_particleProps (pre ++ row (spawned st) ++ post) st),
            strokes_of st p ++ [Spawn (length pre)])
    else
      Some (with_particleProps (pre ++ row (moved st p) ++ post) st,
            strokes_of st p).
Proof.
  intros Hbuf. unfold updateParticle. cbv zeta. rewrite Hbuf.
  destruct p as [x y vx vy life ttl speed radius hue].
  unfold strokes_of, expired, moved, eased_hue, angle, row.
  cbn [p_x p_y p_vx p_vy p_life p_ttl p_speed p_radius p_hue].
  slot_reads.
  destruct (out_of_box st x y).
  { rewrite (initParticle_at st pre _ post Hbuf) by reflexivity. reflexivity. }
  slot_reads.
  destruct (Qltb 1 (Qabs (hue - colorTransitionRef st))); slot_reads.
  all: destruct (Qltb ttl (life + 1)); [|reflexivity].
  all: erewrite (initParticle_at _ pre [_;_;_;_;_;_;_;_;_] post) by reflexivity.
  all: reflexivity.
Qed.

Lemma rows_app ps qs : rows (ps ++ qs) = rows ps ++ rows qs.
Proof. unfold rows. by rewrite map_app, concat_app. Qed.

Lemma rows_cons p ps : rows (p :: ps) = row p ++ rows ps.
Proof. reflexivity. Qed.

Lemma rows_snoc ps p l : rows (ps ++ [p]) ++ l = rows ps ++ row p ++ l.
Proof.
  rewrite rows_app, <- app_assoc. reflexivity.
Qed.

Lemma length_rows ps : length (rows ps) = (length ps * particlePropCount)%nat.
Proof.
  induction ps as [|p ps IH]; [reflexivity|].
  rewrite rows_cons, length_app, IH. simpl. lia.
Qed.

Lemma sweep_buffer ps : forall k buf st,
  sweep k (with_particleProps buf st) ps = sweep k st ps.
Proof.
  induction ps as [|p ps IH]; intros k buf st; [reflexivity|].
  cbn [sweep].
  change (step_slot (k * particlePropCount) (with_particleProps buf st) p)
    with (step_slot (k * particlePropCount) st p).
  destruct (step_slot (k * particlePropCount) st p) as [[p' r] out].
  change (with_randomCalls r (with_particleProps buf st))
    with (with_particleProps buf (with_randomCalls r st)).
  by rewrite IH.
Qed.

Lemma forParticles_rows todo : forall done st,
  particleProps st = rows done ++ rows todo ->
  forParticles E P
    (map (fun k => (k * particlePropCount)%nat) (seq (length done) (length todo))) st
  = let '(todo', r, out) := sweep (length done) st todo in
    Some (with_randomCalls r (with_particleProps (rows done ++ rows todo') st), out).
Proof.
  induction todo as [|p ps IH]; intros done st Hbuf.
  - destruct st; simpl in *. rewrite Hbuf. reflexivity.
  - rewrite rows_cons in Hbuf.
    cbn [length seq map forParticles sweep].
    rewrite <- (length_rows done).
    rewrite (updateParticle_at st _ _ _ Hbuf).
    rewrite (length_rows done).
    assert (Hnext : forall p' r,
      forParticles E P
        (map (fun k => (k * particlePropCount)%nat) (seq (S (length done)) (length ps)))
        (with_randomCalls r (with_particleProps (rows done ++ row p' ++ rows ps) st))
      = let '(ps'', r', out') := sweep (S (length done)) (with_randomCalls r st) ps in
        Some (with_randomCalls r'
                (with_particleProps (rows done ++ rows (p' :: ps'')) st), out')).
    { intros p' r.
      specialize (IH (done ++ [p'])
        (with_randomCalls r (with_particleProps (rows done ++ row p' ++ rows ps) st))).
      rewrite length_app, Nat.add_1_r in IH.
      rewrite IH.
      - change (with_randomCalls r (with_particleProps ?b st))
          with (with_particleProps b (with_randomCalls r st)).
        rewrite sweep_buffer.
        destruct (sweep (S (length done)) (with_randomCalls r st) ps) as [[ps'' r'] out'].
        by rewrite rows_snoc, rows_cons.
      - by rewrite rows_snoc. }
    unfold step_slot.
    destruct (out_of_box st (p_x p) (p_y p)); [|destruct (expired (moved st p))];
      cbn [mbind option_bind].
    + rewrite Hnext.
      destruct (sweep (S (length done)) _ ps) as [[ps'' r'] out']. reflexivity.
    + rewrite Hnext.
      destruct (sweep (S (length done)) _ ps) as [[ps'' r'] out']. reflexivity.
    + change (with_particleProps ?b st)
        with (with_randomCalls (randomCalls st) (with_particleProps b st)) at 1.
      rewrite Hnext.
      destruct (sweep (S (length done)) _ ps) as [[ps'' r'] out']. reflexivity.
Qed.
End Rows.

(** ** Mounting *)

Section Mounting.

Context (E : Env) (P : VortexProps).

Local Abbreviation spawned := (spawned E P).
Local Abbreviation spawns := (spawns E P).

Lemma spawns_buffer n : forall buf st,
  spawns n (with_particleProps buf st) = spawns n st.
Proof.
  induction n as [|n IH]; intros buf st; [reflexivity|].
  cbn [spawns].
  change (with_randomCalls ?r (with_particleProps buf st))
    with (with_particleProps buf (with_randomCalls r st)).
  by rewrite IH.
Qed.

Lemma length_spawns n : forall st, length (spawns n st) = n.
Proof. induction n as [|n IH]; intros st; simpl; [|rewrite IH]; reflexivity. Qed.

Lemma initAll_rows todo : forall done st,
  particleProps st = rows done ++ rows todo ->
  initAll E P
    (map (fun k => (k * particlePropCount)%nat) (seq (length done) (length todo))) st
  = Some (with_randomCalls (randomCalls st + 6 * length todo)
            (with_particleProps (rows done ++ rows (spawns (length todo) st)) st)).
Proof.
  induction todo as [|p ps IH]; intros done st Hbuf.
  - destruct st; simpl in *. rewrite Hbuf, Nat.add_0_r. reflexivity.
  - rewrite rows_cons in Hbuf.
    cbn [length seq map initAll].
    rewrite <- (length_rows done).
    rewrite (initParticle_at E P st _ (row p) _ Hbuf) by reflexivity.
    cbn [mbind option_bind].
    specialize (IH (done ++ [spawned st])
      (with_randomCalls (randomCalls st + 6)
         (with_particleProps (rows done ++ row (spawned st) ++ rows ps) st))).
    rewrite length_app, Nat.add_1_r in IH.
    rewrite IH by (by rewrite rows_snoc).
    change (with_randomCalls ?r (with_particleProps ?b st))
      with (with_particleProps b (with_randomCalls r st)).
    rewrite spawns_buffer, rows_snoc.
    cbn [spawns]. rewrite rows_cons.
    destruct st; unfold with_randomCalls, with_particleProps; simpl.
    do 2 f_equal. lia.
Qed.

Lemma replicate_rows n :
  replicate (n * particlePropCount) 0 = rows (replicate n blank).
Proof.
  induction n as [|n IH]; [reflexivity|].
  change (replicate (S n) blank) with (blank :: replicate n blank).
  rewrite rows_cons, <- IH. reflexivity.
Qed.

Lemma mount_rows w h now :
  mount E P w h now =
  Some (with_randomCalls (6 * particleCount P)
          (with_particleProps
             (rows (spawns (particleCount P) (resize w h (allocate P now))))
             (resize w h (allocate P now)))).
Proof.
  unfold mount, offsets.
  pose proof (initAll_rows (replicate (particleCount P) blank) []
                (resize w h (allocate P now))) as H.
  rewrite length_replicate in H. cbn [length] in H.
  rewrite H; [reflexivity|].
  simpl. apply replicate_rows.
Qed.

End Mounting.

(** ** Counting the calls of initParticle *)

Lemma count_spawn_app i out1 out2 :
  count_spawn i (out1 ++ out2) = (count_spawn i out1 + count_spawn i out2)%nat.
Proof. induction out1 as [|e out1 IH]; simpl; [reflexivity|]. rewrite IH. lia. Qed.

Lemma count_spawn_drawParticle i x y x2 y2 life ttl radius hue :
  count_spawn i (drawParticle x y x2 y2 life ttl radius hue) = 0%nat.
Proof.
  unfold drawParticle. destruct (fadeInOut life ttl) as [a|]; [|reflexivity].
  destruct (Qltb a (1 # 100)); reflexivity.
Qed.

Lemma count_spawn_self i : count_spawn i [Spawn i] = 1%nat.
Proof. simpl. by rewrite Nat.eqb_refl. Qed.

Lemma count_spawn_other i j : i <> j -> count_spawn i [Spawn j] = 0%nat.
Proof. intros Hne. simpl. apply Nat.eqb_neq in Hne. by rewrite Hne. Qed.

(** ** The envelope and the interpolation *)

Lemma js_rem_range a m :
  0 <= a -> 0 < m -> exists r, js_rem a m = Some r /\ 0 <= r /\ r < m.
Proof.
  intros Ha Hm.
  assert (Hq : 0 <= a / m) by (apply Qle_shift_div_l; [done|lra]).
  assert (Hk : (0 <= Qfloor (a / m))%Z).
  { change 0%Z with (Qfloor 0). by apply Qfloor_resp_le. }
  destruct (js_rem_window a m (Qfloor (a / m)) Hm Hk) as (r & Hr & Heq).
  - pose proof (Qfloor_le (a / m)) as H.
    apply (Qmult_le_compat_r _ _ m) in H; [|lra].
    assert (a / m * m == a) by (field; lra). lra.
  - pose proof (Qlt_floor (a / m)) as H.
    apply (Qmult_lt_compat_r _ _ m) in H; [|lra].
    assert (a / m * m == a) by (field; lra). lra.
  - exists r. split; [done|].
    pose proof (Qfloor_le (a / m)) as H1.
    apply (Qmult_le_compat_r _ _ m) in H1; [|lra].
    pose proof (Qlt_floor (a / m)) as H2.
    apply (Qmult_lt_compat_r _ _ m) in H2; [|lra].
    assert (a / m * m == a) by (field; lra).
    rewrite inject_Z_plus in H2. change (inject_Z 1) with 1 in H2.
    split; lra.
Qed.

Lemma js_div_some a b : ~ b == 0 -> js_div a b = Some (a / b).
Proof. intros H. unfold js_div. by apply Qeq_bool_false_neq in H as ->. Qed.

(** For a non-negative age and a positive lifetime the envelope is a number
    between 0 and 1. *)
Lemma fadeInOut_range t m :
  0 <= t -> 0 < m -> exists a, fadeInOut t m = Some a /\ 0 <= a /\ a <= 1.
Proof.
  intros Ht Hm. unfold fadeInOut. cbv zeta.
  destruct (js_rem_range (t + (1 # 2) * m) m) as (r & -> & Hr0 & Hr1); [lra|done|].
  cbn [mbind option_bind].
  rewrite js_div_some by lra.
  eexists; split; [reflexivity|].
  assert (Hhm : 0 < (1 # 2) * m) by lra.
  split.
  - apply Qle_shift_div_l; [done|]. pose proof (Qabs_nonneg (r - (1 # 2) * m)). lra.
  - apply Qle_shift_div_r; [done|].
    apply Qabs_Qle_condition. lra.
Qed.

Lemma lerp_unit v c : in_unit v -> in_unit c -> in_unit (lerp v c (1 # 2)).
Proof. unfold in_unit, lerp. lra. Qed.

Lemma Qmin_le_both a b : Qmin a b <= a /\ Qmin a b <= b.
Proof. split; [apply Q.le_min_l|apply Q.le_min_r]. Qed.

Lemma Qmax_ge_both a b : a <= Qmax a b /\ b <= Qmax a b.
Proof. split; [apply Q.le_max_l|apply Q.le_max_r]. Qed.

Lemma Qmin_cases a b : Qmin a b == a \/ Qmin a b == b.
Proof.
  destruct (Qlt_le_dec a b).
  - left. apply Q.min_l. lra.
  - right. by apply Q.min_r.
Qed.


(** An interpolation with a factor between 0 and 1 stays between its ends. *)
Lemma lerp_between lo hi a b s :
  0 <= s -> s <= 1 -> lo <= a -> a <= hi -> lo <= b -> b <= hi ->
  lo <= lerp a b s /\ lerp a b s <= hi.
Proof.
  intros Hs0 Hs1 Ha0 Ha1 Hb0 Hb1. unfold lerp.
  split.
  - assert (H1 : 0 <= (1 - s) * (a - lo)) by (apply Qmult_le_0_compat; lra).
    assert (H2 : 0 <= s * (b - lo)) by (apply Qmult_le_0_compat; lra).
    lra.
  - assert (H1 : 0 <= (1 - s) * (hi - a)) by (apply Qmult_le_0_compat; lra).
    assert (H2 : 0 <= s * (hi - b)) by (apply Qmult_le_0_compat; lra).
    lra.
Qed.

(** ** A frame on the rows *)

Section Frames.

Context (E : Env) (P : VortexProps).

Local Abbreviation sweep := (sweep E P).
Local Abbreviation step_slot := (step_slot E P).
Local Abbreviation frame_start := (frame_start E).

Lemma particleProps_updateColor now st :
  particleProps (updateColor E now st) = particleProps st.
Proof.
  unfold updateColor.
  by destruct (constants.COLOR_CHANGE_INTERVAL <=? now - lastColorChangeRef st)%Z.
Qed.

Lemma animate_rows now st ps :
  particleProps st = rows ps -> length ps = particleCount P ->
  animate E P now st =
  let '(ps', r, out) := sweep 0 (frame_start now st) ps in
  Some (with_randomCalls r (with_particleProps (rows ps') (frame_start now st)), out).
Proof.
  intros Hbuf Hlen. unfold animate, draw, updateAndDrawParticles, offsets.
  rewrite <- Hlen.
  apply (forParticles_rows E P ps [] (updateColor E now (next_tick st))).
  by rewrite particleProps_updateColor.
Qed.

Lemma length_sweep ps : forall k st, length (sweep k st ps).1.1 = length ps.
Proof.
  induction ps as [|p ps IH]; intros k st; [reflexivity|].
  cbn [sweep].
  destruct (step_slot (k * particlePropCount) st p) as [[p' r] out].
  specialize (IH (S k) (with_randomCalls r st)).
  destruct (sweep (S k) (with_randomCalls r st) ps) as [[ps' r'] out'].
  simpl in *. by rewrite IH.
Qed.

(** A property of rows that each iteration keeps, in every state that
    differs from the start of the frame by its count of random draws only,
    holds of all rows after the loop. *)
Lemma sweep_Forall (good_row : Particle -> Prop) (st0 : Vortex) :
  (forall i r p, good_row p ->
     good_row (step_slot i (with_randomCalls r st0) p).1.1) ->
  forall ps k r, Forall good_row ps ->
    Forall good_row (sweep k (with_randomCalls r st0) ps).1.1.
Proof.
  intros Hstep ps. induction ps as [|p ps IH]; intros k r Hall.
  - constructor.
  - inversion Hall as [|? ? Hp Hps]; subst.
    cbn [sweep].
    pose proof (Hstep (k * particlePropCount)%nat r p Hp) as Hp'.
    destruct (step_slot (k * particlePropCount) (with_randomCalls r st0) p)
      as [[p' r1] out].
    specialize (IH (S k) r1 Hps).
    change (with_randomCalls r1 (with_randomCalls r st0))
      with (with_randomCalls r1 st0).
    destruct (sweep (S k) (with_randomCalls r1 st0) ps) as [[ps' r'] out'].
    simpl in *. by constructor.
Qed.

(** The same for a property of the effects of the iterations. *)
Lemma sweep_effects (good_row : Particle -> Prop) (good_effect : Effect -> Prop)
    (st0 : Vortex) :
  (forall i r p, good_row p ->
     Forall good_effect (step_slot i (with_randomCalls r st0) p).2) ->
  forall ps k r, Forall good_row ps ->
    Forall good_effect (sweep k (with_randomCalls r st0) ps).2.
Proof.
  intros Hstep ps. induction ps as [|p ps IH]; intros k r Hall.
  - constructor.
  - inversion Hall as [|? ? Hp Hps]; subst.
    cbn [sweep].
    pose proof (Hstep (k * particlePropCount)%nat r p Hp) as Hp'.
    destruct (step_slot (k * particlePropCount) (with_randomCalls r st0) p)
      as [[p' r1] out].
    specialize (IH (S k) r1 Hps).
    change (with_randomCalls r1 (with_randomCalls r st0))
      with (with_randomCalls r1 st0).
    destruct (sweep (S k) (with_randomCalls r1 st0) ps) as [[ps' r'] out'].
    simpl in *. apply Forall_app. by split.
Qed.

Lemma with_randomCalls_self st : with_randomCalls (randomCalls st) st = st.
Proof. by destruct st. Qed.

Lemma count_spawn_strokes_of i st p : count_spawn i (strokes_of E st p) = 0%nat.
Proof. apply count_spawn_drawParticle. Qed.

Lemma step_slot_count_other i i' st p :
  i' <> i -> count_spawn i' (step_slot i st p).2 = 0%nat.
Proof.
  intros Hne. unfold step_slot.
  destruct (out_of_box st (p_x p) (p_y p)); [|destruct (expired (moved E st p))];
    cbn [snd]; rewrite ?count_spawn_app, ?count_spawn_strokes_of;
    rewrite ?count_spawn_other by done; reflexivity.
Qed.

Lemma sweep_count_below ps : forall k st i,
  (i < k * particlePropCount)%nat -> count_spawn i (sweep k st ps).2 = 0%nat.
Proof.
  induction ps as [|p ps IH]; intros k st i Hi; [reflexivity|].
  cbn [sweep].
  pose proof (step_slot_count_other (k * particlePropCount) i st p) as H0.
  destruct (step_slot (k * particlePropCount) st p) as [[p' r] out].
  specialize (IH (S k) (with_randomCalls r st) i).
  destruct (sweep (S k) (with_randomCalls r st) ps) as [[ps' r'] out'].
  cbn [snd] in *.
  rewrite count_spawn_app, H0, IH; [reflexivity| |]; unfold particlePropCount in *; lia.
Qed.

(** What the loop does to the row of index [j]: one iteration, in a state
    that differs from the start of the frame by its count of random draws;
    the calls of [initParticle] on its offset are those of that iteration. *)
Lemma sweep_lookup ps : forall k st j p,
  ps !! j = Some p ->
  exists r,
    (sweep k st ps).1.1 !! j
      = Some (step_slot ((k + j) * particlePropCount) (with_randomCalls r st) p).1.1
    /\ count_spawn ((k + j) * particlePropCount) (sweep k st ps).2
      = count_spawn ((k + j) * particlePropCount)
          (step_slot ((k + j) * particlePropCount) (with_randomCalls r st) p).2.
Proof.
  induction ps as [|p0 ps IH]; intros k st j p Hj; [done|].
  cbn [sweep].
  destruct j as [|j]; simpl in Hj.
  - injection Hj as ->. exists (randomCalls st).
    rewrite with_randomCalls_self, Nat.add_0_r.
    pose proof (sweep_count_below ps (S k)) as Hbelow.
    destruct (step_slot (k * particlePropCount) st p) as [[p' r] out].
    specialize (Hbelow (with_randomCalls r st) (k * particlePropCount)%nat).
    destruct (sweep (S k) (with_randomCalls r st) ps) as [[ps' r'] out'].
    cbn [fst snd] in *. split; [reflexivity|].
    rewrite count_spawn_app, Hbelow; unfold particlePropCount; lia.
  - pose proof (step_slot_count_other (k * particlePropCount)
                  ((k + S j) * particlePropCount) st p0) as Hother.
    destruct (step_slot (k * particlePropCount) st p0) as [[p' r] out].
    destruct (IH (S k) (with_randomCalls r st) j p Hj) as (r1 & Hrow & Hcount).
    exists r1.
    replace (k + S j)%nat with (S k + j)%nat by lia.
    replace (k + S j)%nat with (S k + j)%nat in Hother by lia.
    change (with_randomCalls r1 (with_randomCalls r st))
      with (with_randomCalls r1 st) in *.
    destruct (sweep (S k) (with_randomCalls r st) ps) as [[ps' r'] out'].
    cbn [fst snd] in *. split; [exact Hrow|].
    rewrite count_spawn_app, Hother, Hcount; [reflexivity|].
    unfold particlePropCount. lia.
Qed.

End Frames.

(** ** Invariants of the reachable states *)

Section Invariants.

Context (E : Env) (P : VortexProps) (HE : env_ok E).
Context (lo hi : Q) (Hlo : lo <= 0) (Hhi : 359 <= hi).
Context (Hbase : lo <= baseHue P /\ baseHue P <= hi).

Local Abbreviation spawned := (spawned E P).
Local Abbreviation moved := (moved E).
Local Abbreviation step_slot := (step_slot E P).
Local Abbreviation sweep := (sweep E P).
Local Abbreviation good := (good P lo hi).
Local Abbreviation wf := (wf P lo hi).

Lemma spawned_good st :
  lo <= colorTransitionRef st -> colorTransitionRef st <= hi -> good (spawned st).
Proof.
  intros Hc0 Hc1.
  pose proof (random_range E HE) as Hr.
  split; unfold spawned; cbn; unfold in_unit, rand, drawn_from.
  - lra.
  - lra.
  - lra.
  - unfold constants.baseTTL, constants.rangeTTL.
    destruct (Hr (randomCalls st + 2)%nat). lra.
  - exists (Math_random E (randomCalls st + 3)).
    destruct (Hr (randomCalls st + 3)%nat). by repeat split.
  - exists (Math_random E (randomCalls st + 4)).
    destruct (Hr (randomCalls st + 4)%nat). by repeat split.
  - unfold constants.rangeHue.
    destruct (Hr (randomCalls st + 5)%nat). lra.
Qed.

Lemma eased_hue_range st p :
  lo <= colorTransitionRef st -> colorTransitionRef st <= hi ->
  lo <= p_hue p -> p_hue p < hi + 100 ->
  lo <= eased_hue st p /\ eased_hue st p < hi + 100.
Proof.
  intros Hc0 Hc1 Hh0 Hh1. unfold eased_hue.
  destruct (Qltb 1 (Qabs (p_hue p - colorTransitionRef st))); [|done].
  unfold lerp. lra.
Qed.

Lemma moved_good st p :
  lo <= colorTransitionRef st -> colorTransitionRef st <= hi ->
  good p -> good (moved st p).
Proof.
  intros Hc0 Hc1 [Hvx Hvy Hlife Httl Hspeed Hradius Hhue].
  split; unfold moved; cbn.
  - apply lerp_unit; [done|]. apply (cos_range E HE).
  - apply lerp_unit; [done|]. apply (sin_range E HE).
  - lra.
  - done.
  - done.
  - done.
  - apply eased_hue_range; tauto.
Qed.

Lemma step_slot_good i st p :
  lo <= colorTransitionRef st -> colorTransitionRef st <= hi ->
  good p -> good (step_slot i st p).1.1.
Proof.
  intros Hc0 Hc1 Hp. unfold step_slot.
  destruct (out_of_box st (p_x p) (p_y p)); [|destruct (expired (moved st p))];
    cbn [fst]; auto using spawned_good, moved_good.
Qed.

Lemma sweep_good ps k st :
  lo <= colorTransitionRef st -> colorTransitionRef st <= hi ->
  Forall good ps -> Forall good (sweep k st ps).1.1.
Proof.
  intros Hc0 Hc1 Hall.
  rewrite <- (with_randomCalls_self st).
  apply sweep_Forall; [|done].
  intros i r p Hp. by apply step_slot_good.
Qed.

Lemma getNextColor_range k :
  0 <= getNextColor E k /\ getNextColor E k <= 359.
Proof.
  unfold getNextColor. destruct (random_range E HE k) as [H0 H1].
  assert (Hz0 : (0 <= Qfloor (Math_random E k * 360))%Z).
  { change 0%Z with (Qfloor 0). apply Qfloor_resp_le. lra. }
  assert (Hz1 : (Qfloor (Math_random E k * 360) < 360)%Z).
  { rewrite Zlt_Qlt. change (inject_Z 360) with 360.
    pose proof (Qfloor_le (Math_random E k * 360)). lra. }
  split.
  - change 0 with (inject_Z 0). by rewrite <- Zle_Qle.
  - change 359 with (inject_Z 359). rewrite <- Zle_Qle. lia.
Qed.

Lemma updateColor_hue now st :
  hue_between lo hi st -> hue_between lo hi (updateColor E now st).
Proof.
  intros [[Hc0 Hc1] [Ht0 Ht1]]. unfold updateColor, hue_between.
  pose proof (getNextColor_range (randomCalls st)) as [Hn0 Hn1].
  destruct (constants.COLOR_CHANGE_INTERVAL <=? now - lastColorChangeRef st)%Z;
    cbn; unfold constants.TRANSITION_SPEED.
  - split; [apply lerp_between|]; lra.
  - split; [apply lerp_between|]; lra.
Qed.

Lemma wf_mount w h now st : mount E P w h now = Some st -> wf st.
Proof.
  rewrite mount_rows. intros [= <-].
  split; cbn.
  - eexists. split; [reflexivity|]. split; [apply length_spawns|].
    generalize (resize w h (allocate P now)) (particleCount P)
      (eq_refl : colorTransitionRef (resize w h (allocate P now)) = baseHue P).
    intros st0 n. revert st0.
    induction n as [|n IH]; intros st0 Hc; [constructor|].
    cbn [spawns]. constructor.
    + apply spawned_good; rewrite Hc; tauto.
    + by apply IH.
  - unfold hue_between. cbn. tauto.
Qed.

Lemma wf_animate now st st' out :
  wf st -> animate E P now st = Some (st', out) -> wf st'.
Proof.
  intros [(ps & Hbuf & Hlen & Hall) Hhue].
  rewrite (animate_rows E P now st ps Hbuf Hlen).
  pose proof (updateColor_hue now (next_tick st)) as Hcol.
  assert (Hnt : hue_between lo hi (next_tick st)) by exact Hhue.
  specialize (Hcol Hnt). fold (frame_start E now st) in Hcol.
  pose proof (sweep_good ps 0 (frame_start E now st)) as Hgood.
  pose proof (length_sweep E P ps 0 (frame_start E now st)) as Hlen'.
  destruct (sweep 0 (frame_start E now st) ps) as [[ps' r] out'].
  intros [= <- <-]. cbn [fst] in *.
  split; cbn.
  - exists ps'. split; [reflexivity|]. split; [congruence|].
    apply Hgood; [apply Hcol..|done].
  - exact Hcol.
Qed.

Lemma wf_handle ev st st' out :
  wf st -> handle E P ev st = Some (st', out) -> wf st'.
Proof.
  destruct ev as [now|w h]; cbn [handle].
  - apply wf_animate.
  - intros [Hrows Hhue] [= <- <-]. by split.
Qed.

Lemma reachable_wf st : reachable E P st -> wf st.
Proof.
  induction 1 as [w h now st Hm|ev st st' out _ IH Hh].
  - by apply (wf_mount w h now).
  - by apply (wf_handle ev st st' out).
Qed.

End Invariants.

(** ** The envelope at its ends and at its middle *)

Lemma js_rem_first a m :
  0 < m -> 0 <= a -> a < m -> exists r, js_rem a m = Some r /\ r == a.
Proof.
  intros Hm H0 H1.
  destruct (js_rem_window a m 0 Hm) as (r & Hr & Heq); [lia| | |].
  - change (inject_Z 0) with 0. lra.
  - change (inject_Z (0 + 1)) with 1. lra.
  - exists r. split; [done|]. change (inject_Z 0) with 0 in Heq. lra.
Qed.

Lemma js_rem_second a m :
  0 < m -> m <= a -> a < 2 * m -> exists r, js_rem a m = Some r /\ r == a - m.
Proof.
  intros Hm H0 H1.
  destruct (js_rem_window a m 1 Hm) as (r & Hr & Heq); [lia| | |].
  - change (inject_Z 1) with 1. lra.
  - change (inject_Z (1 + 1)) with 2. lra.
  - exists r. split; [done|]. change (inject_Z 1) with 1 in Heq. lra.
Qed.


(** ** Slots of the buffer and rows *)

Lemma rows_lookup ps k p a :
  ps !! k = Some p -> (a < particlePropCount)%nat ->
  rows ps !! (a + k * particlePropCount)%nat = row p !! a.
Proof.
  intros Hk Ha.
  rewrite <- (take_drop_middle ps k p Hk), rows_app, rows_cons.
  assert (Hlen : length (rows (take k ps)) = (k * particlePropCount)%nat).
  { rewrite length_rows, length_take. apply lookup_lt_Some in Hk.
    by rewrite Nat.min_l by lia. }
  rewrite <- Hlen, lookup_at, lookup_app_l; [reflexivity|].
  exact Ha.
Qed.

Lemma steady_ok r : 0 <= r -> r < 1 -> env_ok (steady r).
Proof. intros H0 H1. split; intros; cbn; lra. Qed.

Section Shape.

Context (E : Env) (P : VortexProps).

Local Abbreviation shaped := (shaped P).

Lemma reachable_shaped st : reachable E P st -> shaped st.
Proof.
  induction 1 as [w h now st Hm|ev st st' out _ (ps & Hbuf & Hlen) Hh].
  - rewrite mount_rows in Hm. injection Hm as <-.
    eexists. split; [reflexivity|]. apply length_spawns.
  - destruct ev as [now|w h]; cbn [handle] in Hh.
    + rewrite (animate_rows E P now st ps Hbuf Hlen) in Hh.
      pose proof (length_sweep E P ps 0 (frame_start E now st)) as Hlen'.
      destruct (sweep E P 0 (frame_start E now st) ps) as [[ps' r] out'].
      injection Hh as <- <-. exists ps'. split; [reflexivity|].
      cbn [fst] in Hlen'. congruence.
    + injection Hh as <- <-. by exists ps.
Qed.

Lemma shaped_length st :
  shaped st -> length (particleProps st) = (particleCount P * particlePropCount)%nat.
Proof. intros (ps & -> & <-). apply length_rows. Qed.

Lemma mount_mounted w h now : mount E P w h now = Some (mounted E P w h now).
Proof. unfold mounted. by rewrite mount_rows. Qed.

Lemma reachable_mounted w h now : reachable E P (mounted E P w h now).
Proof. apply (reachable_mount E P w h now). apply mount_mounted. Qed.

(** A frame runs to its end from every state whose buffer is made of rows,
    and leaves the colour references as [updateColor] set them. *)
Lemma animate_total now st :
  shaped st ->
  exists st' out, animate E P now st = Some (st', out)
    /\ colorTransitionRef st' = colorTransitionRef (frame_start E now st)
    /\ targetColorRef st' = targetColorRef (frame_start E now st)
    /\ canvas_width st' = canvas_width st
    /\ canvas_height st' = canvas_height st
    /\ center st' = center st.
Proof.
  intros (ps & Hbuf & Hlen).
  rewrite (animate_rows E P now st ps Hbuf Hlen).
  destruct (sweep E P 0 (frame_start E now st) ps) as [[ps' r] out'].
  do 2 eexists. split; [reflexivity|].
  unfold frame_start, updateColor.
  destruct (constants.COLOR_CHANGE_INTERVAL <=? now - lastColorChangeRef (next_tick st))%Z;
    by cbn.
Qed.

End Shape.

(** ** The global hue *)




(** ** The buffer across resizes *)

(** C8: the buffer has [particleCount * 9] cells when it is allocated and in
    every reachable state, hence after every resize and every frame; a
    resize leaves the buffer and every field other than the size of the canvas
    and the centre as they were. *)
Theorem resize_keeps_buffer E P now0 st w h :
  reachable E P st ->
  length (particleProps (allocate P now0)) = (particleCount P * 9)%nat
  /\ length (particleProps st) = (particleCount P * 9)%nat
  /\ (forall ev st' out, handle E P ev st = Some (st', out) ->
        length (particleProps st') = (particleCount P * 9)%nat)
  /\ particleProps (resize w h st) = particleProps st
  /\ canvas_width (resize w h st) = w
  /\ canvas_height (resize w h st) = h
  /\ center (resize w h st) = ((1 # 2) * N2Q w, (1 # 2) * N2Q h)
  /\ colorTransitionRef (resize w h st) = colorTransitionRef st
  /\ targetColorRef (resize w h st) = targetColorRef st
  /\ lastColorChangeRef (resize w h st) = lastColorChangeRef st
  /\ tick (resize w h st) = tick st
  /\ randomCalls (resize w h st) = randomCalls st.
Proof.
  intros Hreach.
  split; [apply length_replicate|].
  split; [apply (shaped_length P), (reachable_shaped E P), Hreach|].
  split; [|by repeat split].
  intros ev st' out Hh.
  apply (shaped_length P), (reachable_shaped E P).
  by apply (reachable_handle E P ev st st' out).
Qed.

(** ** What a spawn writes *)

Lemma initParticle_inv E P i st st' :
  initParticle E P i st = Some st' ->
  (i + 9 <= length (particleProps st))%nat
  /\ st' = with_randomCalls (randomCalls st + 6)
             (with_particleProps
                (list_inserts i (row (spawned E P st)) (particleProps st)) st).
Proof.
  unfold initParticle, typed_set. cbv zeta.
  case_decide as Hfit; [|done].
  cbn [mbind option_bind]. intros [= <-]. split; [exact Hfit|reflexivity].
Qed.




(** ** One slot across a frame *)

Section Slots.

Context (E : Env) (P : VortexProps).

Local Abbreviation step_slot := (step_slot E P).
Local Abbreviation frame_start := (frame_start E).

(** A frame runs one iteration on each row, in a state that differs from
    the start of the frame by its count of random draws. *)
Lemma frame_slot now st ps k p :
  particleProps st = rows ps -> length ps = particleCount P -> ps !! k = Some p ->
  exists r ps' st' out,
    animate E P now st = Some (st', out)
    /\ particleProps st' = rows ps' /\ length ps' = particleCount P
    /\ canvas_width st' = canvas_width st /\ canvas_height st' = canvas_height st
    /\ ps' !! k
       = Some (step_slot (k * particlePropCount)
                 (with_randomCalls r (frame_start now st)) p).1.1
    /\ count_spawn (k * particlePropCount) out
       = count_spawn (k * particlePropCount)
           (step_slot (k * particlePropCount)
              (with_randomCalls r (frame_start now st)) p).2.
Proof.
  intros Hbuf Hlen Hk.
  rewrite (animate_rows E P now st ps Hbuf Hlen).
  destruct (sweep_lookup E P ps 0 (frame_start now st) k p Hk) as (r & Hrow & Hcount).
  pose proof (length_sweep E P ps 0 (frame_start now st)) as Hlen'.
  destruct (sweep E P 0 (frame_start now st) ps) as [[ps' r'] out].
  cbn [fst snd] in *.
  exists r, ps'. do 2 eexists. split; [reflexivity|].
  split; [reflexivity|]. split; [congruence|].
  split; [|split; [|by split]].
  - unfold frame_start, updateColor.
    by destruct (constants.COLOR_CHANGE_INTERVAL <=? now - lastColorChangeRef (next_tick st))%Z.
  - unfold frame_start, updateColor.
    by destruct (constants.COLOR_CHANGE_INTERVAL <=? now - lastColorChangeRef (next_tick st))%Z.
Qed.

Lemma out_of_box_frame_start now r st x y :
  out_of_box (with_randomCalls r (frame_start now st)) x y = out_of_box st x y.
Proof.
  unfold out_of_box, frame_start, updateColor.
  by destruct (constants.COLOR_CHANGE_INTERVAL <=? now - lastColorChangeRef (next_tick st))%Z.
Qed.

Lemma out_of_box_true st x y :
  out_of_box st x y = true <->
  x < -50 \/ N2Q (canvas_width st) + 50 < x \/ y < -50 \/ N2Q (canvas_height st) + 50 < y.
Proof.
  unfold out_of_box. rewrite !orb_true_iff, !Qltb_lt. tauto.
Qed.

Lemma out_of_box_false st x y :
  out_of_box st x y = false <->
  (-50 <= x /\ x <= N2Q (canvas_width st) + 50)
  /\ (-50 <= y /\ y <= N2Q (canvas_height st) + 50).
Proof.
  unfold out_of_box. rewrite !orb_false_iff, !Qltb_ge. tauto.
Qed.

(** The position of a slot, read from the rows. *)
Lemma slot_position st ps k p x y :
  particleProps st = rows ps -> ps !! k = Some p ->
  particleProps st !! (k * particlePropCount)%nat = Some x ->
  particleProps st !! (1 + k * particlePropCount)%nat = Some y ->
  x = p_x p /\ y = p_y p.
Proof.
  intros Hbuf Hk Hx Hy. rewrite Hbuf in Hx, Hy.
  pose proof (rows_lookup ps k p 0 Hk) as Hx'.
  change (0 + ?n)%nat with n in Hx'.
  rewrite Hx' in Hx by (unfold particlePropCount; lia).
  rewrite (rows_lookup ps k p 1 Hk) in Hy by (unfold particlePropCount; lia).
  cbn in Hx, Hy. split; congruence.
Qed.

Lemma shaped_slot st k :
  shaped P st -> (k < particleCount P)%nat ->
  exists ps p, particleProps st = rows ps /\ length ps = particleCount P
    /\ ps !! k = Some p.
Proof.
  intros (ps & Hbuf & Hlen) Hk.
  destruct (lookup_lt_is_Some_2 ps k) as [p Hp]; [lia|].
  by exists ps, p.
Qed.

End Slots.

(** ** Leaving the box *)

Lemma initParticle_random E E' P i st :
  Math_random E' = Math_random E -> initParticle E' P i st = initParticle E P i st.
Proof. intros H. unfold initParticle, rand, randRange. by rewrite H. Qed.

Lemma initParticle_fits E P i st :
  (i + 9 <= length (particleProps st))%nat -> is_Some (initParticle E P i st).
Proof.
  intros Hfit. unfold initParticle, typed_set. cbv zeta.
  rewrite decide_True by exact Hfit. by eexists.
Qed.

(** The iteration on a slot whose position fails the test is a call of
    [initParticle] and nothing else. *)
Lemma updateParticle_out_of_box E P i st x y :
  particleProps st !! i = Some x -> particleProps st !! (1 + i)%nat = Some y ->
  out_of_box st x y = true ->
  updateParticle E P i st = st' ← initParticle E P i st; Some (st', [Spawn i]).
Proof.
  intros Hx Hy Hout. unfold updateParticle. cbv zeta.
  rewrite Hx, Hy. cbn [mbind option_bind]. by rewrite Hout.
Qed.

(** C7: a slot whose stored position is outside the box when a frame starts
    is respawned by that frame whatever its age: the frame calls
    [initParticle] once on the slot, which then holds the row that
    [initParticle] writes, with direction and age 0; the iteration, run in any
    state with that position and canvas, is that call alone, strokes nothing
    and does not depend on the noise, the cosine or the sine. *)
Theorem out_of_box_respawn E P st k x y now :
  reachable E P st -> (k < particleCount P)%nat ->
  particleProps st !! (k * 9)%nat = Some x ->
  particleProps st !! (1 + k * 9)%nat = Some y ->
  x < -50 \/ N2Q (canvas_width st) + 50 < x
    \/ y < -50 \/ N2Q (canvas_height st) + 50 < y ->
  (exists st' out r,
     animate E P now st = Some (st', out)
     /\ count_spawn (k * 9) out = 1%nat
     /\ (forall a, (a < 9)%nat ->
           particleProps st' !! (a + k * 9)%nat
           = row (spawned E P (with_randomCalls r (frame_start E now st))) !! a)
     /\ particleProps st' !! (2 + k * 9)%nat = Some 0
     /\ particleProps st' !! (3 + k * 9)%nat = Some 0
     /\ particleProps st' !! (4 + k * 9)%nat = Some 0)
  /\ (forall s,
        canvas_width s = canvas_width st -> canvas_height s = canvas_height st ->
        particleProps s !! (k * 9)%nat = Some x ->
        particleProps s !! (1 + k * 9)%nat = Some y ->
        (k * 9 + 9 <= length (particleProps s))%nat ->
        exists s', initParticle E P (k * 9) s = Some s'
          /\ updateParticle E P (k * 9) s = Some (s', [Spawn (k * 9)%nat])
          /\ forall E', Math_random E' = Math_random E ->
               updateParticle E' P (k * 9) s = Some (s', [Spawn (k * 9)%nat])).
Proof.
  intros Hreach Hk Hx Hy Hout. split.
  - destruct (shaped_slot P st k (reachable_shaped E P st Hreach) Hk)
      as (ps & p & Hbuf & Hlen & Hp).
    destruct (slot_position st ps k p x y Hbuf Hp Hx Hy) as [-> ->].
    destruct (frame_slot E P now st ps k p Hbuf Hlen Hp)
      as (r & ps' & st' & out & Hrun & Hbuf' & Hlen' & _ & _ & Hrow & Hcount).
    apply out_of_box_true in Hout.
    unfold step_slot in Hrow, Hcount.
    rewrite out_of_box_frame_start, Hout in Hrow, Hcount.
    cbn [fst snd] in Hrow, Hcount. unfold particlePropCount in Hrow, Hcount.
    exists st', out, r. split; [exact Hrun|].
    split; [by rewrite Hcount, count_spawn_self|].
    rewrite Hbuf'.
    assert (Hslot : forall a, (a < 9)%nat ->
      rows ps' !! (a + k * 9)%nat
      = row (spawned E P (with_randomCalls r (frame_start E now st))) !! a).
    { intros a Ha. by apply (rows_lookup ps' k _ a Hrow). }
    split; [exact Hslot|].
    split; [|split]; rewrite Hslot by lia; reflexivity.
  - intros s Hw Hh Hsx Hsy Hfit.
    assert (Hs : out_of_box s x y = true).
    { apply out_of_box_true. rewrite Hw, Hh. exact Hout. }
    destruct (initParticle_fits E P (k * 9) s Hfit) as [s' Hs'].
    exists s'. split; [exact Hs'|]. split.
    + rewrite (updateParticle_out_of_box E P _ s x y Hsx Hsy Hs), Hs'. reflexivity.
    + intros E' Hrand.
      rewrite (updateParticle_out_of_box E' P _ s x y Hsx Hsy Hs).
      rewrite (initParticle_random E E' P _ s Hrand), Hs'. reflexivity.
Qed.

(** ** Bounds on the rows of the reachable states *)

Lemma reachable_good E P st :
  env_ok E -> reachable E P st ->
  wf P (Qmin 0 (baseHue P)) (Qmax 359 (baseHue P)) st.
Proof.
  intros HE. apply (reachable_wf E P HE).
  - apply Q.le_min_l.
  - apply Q.le_max_l.
  - split; [apply Q.le_min_r|apply Q.le_max_r].
Qed.

(** The fields of the slot of index [k] in a state whose buffer is made of
    the rows [ps]. *)
Lemma slot_fields st ps k p :
  particleProps st = rows ps -> ps !! k = Some p ->
  particleProps st !! (k * 9)%nat = Some (p_x p)
  /\ particleProps st !! (1 + k * 9)%nat = Some (p_y p)
  /\ particleProps st !! (2 + k * 9)%nat = Some (p_vx p)
  /\ particleProps st !! (3 + k * 9)%nat = Some (p_vy p)
  /\ particleProps st !! (4 + k * 9)%nat = Some (p_life p)
  /\ particleProps st !! (5 + k * 9)%nat = Some (p_ttl p)
  /\ particleProps st !! (6 + k * 9)%nat = Some (p_speed p)
  /\ particleProps st !! (7 + k * 9)%nat = Some (p_radius p)
  /\ particleProps st !! (8 + k * 9)%nat = Some (p_hue p).
Proof.
  intros -> Hk.
  pose proof (fun a => rows_lookup ps k p a Hk) as H.
  unfold particlePropCount in H.
  split; [apply (H 0%nat); lia|].
  repeat split; apply H; lia.
Qed.

Lemma strokes_of_alpha E P lo hi st p :
  good P lo hi p -> Forall stroke_alpha_ok (strokes_of E st p).
Proof.
  intros Hp. unfold strokes_of, drawParticle. cbv zeta.
  destruct (fadeInOut_range (p_life p) (p_ttl p)) as (a & -> & Ha0 & Ha1).
  - apply (good_life P lo hi p Hp).
  - destruct (good_ttl P lo hi p Hp). lra.
  - destruct (Qltb a (1 # 100)) eqn:Hlt; [constructor|].
    apply Qltb_ge in Hlt.
    constructor; [|constructor]. exists a. by repeat split.
Qed.

Lemma step_slot_alpha E P lo hi i st p :
  good P lo hi p -> Forall stroke_alpha_ok (step_slot E P i st p).2.
Proof.
  intros Hp. unfold step_slot.
  destruct (out_of_box st (p_x p) (p_y p)); [|destruct (expired (moved E st p))];
    cbn [snd].
  - by repeat constructor.
  - apply Forall_app. split; [by apply (strokes_of_alpha E P lo hi)|].
    by repeat constructor.
  - by apply (strokes_of_alpha E P lo hi).
Qed.

(** C9: in every reachable state every slot has a lifetime of at least
    [baseTTL] = 50, hence positive, and the envelope of its age and lifetime
    is a number between 0 and 1; a frame run from that state runs to its end
    and every stroke it emits has a numeric alpha, between 0.01 and 1. *)
Theorem lifetime_positive E P st k now :
  env_ok E -> reachable E P st -> (k < particleCount P)%nat ->
  (exists life ttl a,
     particleProps st !! (4 + k * 9)%nat = Some life
     /\ particleProps st !! (5 + k * 9)%nat = Some ttl
     /\ constants.baseTTL <= ttl /\ 0 < ttl
     /\ fadeInOut life ttl = Some a /\ 0 <= a /\ a <= 1)
  /\ (exists st' out, animate E P now st = Some (st', out)
        /\ Forall stroke_alpha_ok out).
Proof.
  intros HE Hreach Hk.
  destruct (reachable_good E P st HE Hreach) as [(ps & Hbuf & Hlen & Hall) Hhue].
  split.
  - destruct (lookup_lt_is_Some_2 ps k) as [p Hp]; [lia|].
    pose proof (proj1 (Forall_lookup _ _) Hall k p Hp) as Hgood.
    destruct (slot_fields st ps k p Hbuf Hp) as (_ & _ & _ & _ & Hlife & Httl & _).
    destruct (good_ttl _ _ _ _ Hgood) as [Ht0 Ht1].
    destruct (fadeInOut_range (p_life p) (p_ttl p)) as (a & Ha & Ha0 & Ha1);
      [apply (good_life _ _ _ _ Hgood)|lra|].
    exists (p_life p), (p_ttl p), a. unfold constants.baseTTL.
    repeat split; try done. lra.
  - rewrite (animate_rows E P now st ps Hbuf Hlen).
    pose proof (sweep_effects E P (good P _ _) stroke_alpha_ok (frame_start E now st)
                  (fun i r p Hp => step_slot_alpha E P _ _ i _ p Hp)
                  ps 0%nat (randomCalls (frame_start E now st)) Hall) as Heff.
    rewrite with_randomCalls_self in Heff.
    destruct (sweep E P 0 (frame_start E now st) ps) as [[ps' r] out].
    by exists (with_randomCalls r (with_particleProps (rows ps') (frame_start E now st))), out.
Qed.


(** ** Direction and displacement *)

Lemma Qabs_unit_mult v s : in_unit v -> Qabs (v * s) <= Qabs s.
Proof.
  intros [H0 H1]. rewrite Qabs_Qmult.
  assert (Hv : Qabs v <= 1) by (apply Qabs_Qle_condition; lra).
  pose proof (Qabs_nonneg s) as Hs.
  assert (0 <= (1 - Qabs v) * Qabs s) by (apply Qmult_le_0_compat; lra).
  lra.
Qed.

Lemma Qabs_step x v s : in_unit v -> Qabs (x + v * s - x) <= Qabs s.
Proof.
  intros Hv.
  setoid_replace (x + v * s - x) with (v * s) using relation Qeq by ring.
  by apply Qabs_unit_mult.
Qed.

Lemma moved_displacement E st p :
  env_ok E -> in_unit (p_vx p) -> in_unit (p_vy p) ->
  Qabs (p_x (moved E st p) - p_x p) <= Qabs (p_speed p)
  /\ Qabs (p_y (moved E st p) - p_y p) <= Qabs (p_speed p).
Proof.
  intros HE Hvx Hvy. unfold moved. cbv zeta. cbn [p_x p_y].
  split; apply Qabs_step, lerp_unit; try done.
  - apply (cos_range E HE).
  - apply (sin_range E HE).
Qed.


(** ** How far a particle can be from the box *)

Lemma N2Q_nonneg n : 0 <= N2Q n.
Proof.
  unfold N2Q. change 0 with (inject_Z 0). rewrite <- Zle_Qle. lia.
Qed.

Section Drift.

Context (E : Env) (P : VortexProps) (HE : env_ok E).
Context (W : N) (s : Q).
Context (Hspeed : forall r, 0 <= r -> r < 1 ->
                    Qabs (baseSpeed P + rangeSpeed P * r) <= s).

Local Abbreviation tame := (tame W s).

Lemma speed_bound_nonneg : 0 <= s.
Proof.
  pose proof (Hspeed 0 ltac:(lra) ltac:(lra)) as H.
  pose proof (Qabs_nonneg (baseSpeed P + rangeSpeed P * 0)). lra.
Qed.

Lemma spawned_tame st : canvas_width st = W -> tame (spawned E P st).
Proof.
  intros Hw. pose proof speed_bound_nonneg as Hs.
  pose proof (N2Q_nonneg W) as HW.
  destruct (random_range E HE (randomCalls st)) as [Hr0 Hr1].
  destruct (random_range E HE (randomCalls st + 3)) as [Hq0 Hq1].
  unfold tame, spawned, rand. cbn [p_vx p_speed p_x]. rewrite Hw.
  split; [unfold in_unit; lra|]. split; [by apply Hspeed|].
  assert (0 <= N2Q W * Math_random E (randomCalls st))
    by (by apply Qmult_le_0_compat).
  assert (0 <= N2Q W * (1 - Math_random E (randomCalls st)))
    by (apply Qmult_le_0_compat; lra).
  split; lra.
Qed.

Lemma moved_tame st p :
  canvas_width st = W -> out_of_box st (p_x p) (p_y p) = false ->
  tame p -> tame (moved E st p).
Proof.
  intros Hw Hin (Hvx & Hsp & _ & _).
  apply out_of_box_false in Hin as [[Hx0 Hx1] _]. rewrite Hw in Hx1.
  assert (Hvx' : in_unit (lerp (p_vx p) (Math_cos E (angle E st p)) (1 # 2))).
  { apply lerp_unit; [done|apply (cos_range E HE)]. }
  unfold tame, moved. cbv zeta. cbn [p_vx p_speed p_x].
  split; [exact Hvx'|]. split; [exact Hsp|].
  pose proof (Qabs_unit_mult _ (p_speed p) Hvx') as Hstep.
  apply Qabs_Qle_condition in Hstep.
  split; lra.
Qed.

Lemma step_slot_tame i st p :
  canvas_width st = W -> tame p -> tame (step_slot E P i st p).1.1.
Proof.
  intros Hw Hp. unfold step_slot.
  destruct (out_of_box st (p_x p) (p_y p)) eqn:Hout;
    [|destruct (expired (moved E st p))]; cbn [fst].
  - by apply spawned_tame.
  - by apply spawned_tame.
  - by apply moved_tame.
Qed.

Lemma spawns_tame n : forall st,
  canvas_width st = W -> Forall tame (spawns E P n st).
Proof.
  induction n as [|n IH]; intros st Hw; [constructor|].
  cbn [spawns]. constructor; [by apply spawned_tame|by apply IH].
Qed.

Lemma canvas_width_frame_start now st :
  canvas_width (frame_start E now st) = canvas_width st.
Proof.
  unfold frame_start, updateColor.
  by destruct (constants.COLOR_CHANGE_INTERVAL <=? now - lastColorChangeRef (next_tick st))%Z.
Qed.

(** Frames keep every row within one step of the box as long as the canvas
    keeps its width. *)
Lemma frames_tame nows : forall st ps,
  canvas_width st = W -> particleProps st = rows ps ->
  length ps = particleCount P -> Forall tame ps ->
  exists st' outs ps',
    run E P (map Frame nows) st = Some (st', outs)
    /\ particleProps st' = rows ps' /\ length ps' = particleCount P
    /\ Forall tame ps'.
Proof.
  induction nows as [|now nows IH]; intros st ps Hw Hbuf Hlen Hall.
  - by exists st, [], ps.
  - cbn [map run handle].
    rewrite (animate_rows E P now st ps Hbuf Hlen).
    pose proof (length_sweep E P ps 0 (frame_start E now st)) as Hlen'.
    pose proof (sweep_Forall E P tame (frame_start E now st)) as Hkeep.
    specialize (Hkeep (fun i r p Hp =>
      step_slot_tame i _ p
        (eq_trans (canvas_width_frame_start now st) Hw : canvas_width
           (with_randomCalls r (frame_start E now st)) = W) Hp)).
    specialize (Hkeep ps 0%nat (randomCalls (frame_start E now st)) Hall).
    rewrite with_randomCalls_self in Hkeep.
    destruct (sweep E P 0 (frame_start E now st) ps) as [[ps1 r1] out1].
    cbn [fst] in *. cbn [mbind option_bind].
    destruct (IH (with_randomCalls r1
                    (with_particleProps (rows ps1) (frame_start E now st))) ps1)
      as (st' & outs & ps' & Hrun & Hbuf' & Hlen'' & Hall'); try done.
    + cbn. rewrite <- Hw. apply canvas_width_frame_start.
    + congruence.
    + rewrite Hrun. cbn [mbind option_bind]. by exists st', (out1 :: outs), ps'.
Qed.

Lemma mounted_frames_tame h now0 nows k :
  (k < particleCount P)%nat ->
  exists st0 st outs x,
    mount E P W h now0 = Some st0
    /\ run E P (map Frame nows) st0 = Some (st, outs)
    /\ particleProps st !! (k * 9)%nat = Some x
    /\ -50 - s <= x /\ x <= N2Q W + 50 + s.
Proof.
  intros Hk. rewrite mount_rows.
  set (st0 := resize W h (allocate P now0)).
  destruct (frames_tame nows
              (with_randomCalls (6 * particleCount P)
                 (with_particleProps (rows (spawns E P (particleCount P) st0)) st0))
              (spawns E P (particleCount P) st0))
    as (st & outs & ps & Hrun & Hbuf & Hlen & Hall); try done.
  - apply length_spawns.
  - by apply spawns_tame.
  - destruct (lookup_lt_is_Some_2 ps k) as [p Hp]; [lia|].
    destruct (proj1 (Forall_lookup _ _) Hall k p Hp) as (_ & _ & Hx0 & Hx1).
    destruct (slot_fields st ps k p Hbuf Hp) as (Hx & _).
    eexists _, st, outs, (p_x p). split; [reflexivity|]. by repeat split.
Qed.

End Drift.

(** C3, amended: in the scenario of ten particles of speed 1 on a canvas of
    100 by 100, after any number of frames, hence after each of the first
    1000, the run has returned a state in which the x of every slot is a
    number in [-51, 151]: the box tested at the start of an iteration plus
    the one step that the iteration then adds. *)
Theorem scenario_positions E now0 nows k :
  env_ok E -> (k < 10)%nat ->
  exists st0 st outs x,
    mount E scenario 100 100 now0 = Some st0
    /\ run E scenario (map Frame nows) st0 = Some (st, outs)
    /\ particleProps st !! (k * 9)%nat = Some x
    /\ -51 <= x /\ x <= 151.
Proof.
  intros HE Hk.
  destruct (mounted_frames_tame E scenario HE 100 1) with (h := 100%N)
    (now0 := now0) (nows := nows) (k := k)
    as (st0 & st & outs & x & Hm & Hrun & Hx & Hx0 & Hx1).
  - intros r Hr0 Hr1. cbn [scenario baseSpeed rangeSpeed].
    apply Qabs_Qle_condition. lra.
  - exact Hk.
  - exists st0, st, outs, x. by repeat split.
Qed.

(** ** The life of a particle *)

Lemma Qnat_S n : Qnat (S n) == Qnat n + 1.
Proof.
  unfold Qnat. rewrite Nat2Z.inj_succ, <- Z.add_1_r, inject_Z_plus. reflexivity.
Qed.

Lemma Qnat_nonneg n : 0 <= Qnat n.
Proof. unfold Qnat. change 0 with (inject_Z 0). rewrite <- Zle_Qle. lia. Qed.

Section Life.

Context (E : Env) (P : VortexProps).






End Life.


Lemma spawned_ttl E P st :
  env_ok E -> 50 <= p_ttl (spawned E P st) /\ p_ttl (spawned E P st) < 200.
Proof.
  intros HE. unfold spawned, rand, constants.baseTTL, constants.rangeTTL. cbn [p_ttl].
  destruct (random_range E HE (randomCalls st + 2)). lra.
Qed.


(** * The theorems at concrete inputs *)

Lemma steady_half_ok : env_ok (steady (1 # 2)).
Proof. apply steady_ok; lra. Qed.



Lemma drifting_ok : env_ok drifting.
Proof.
  split; intros; cbn; try lra.
  destruct n as [|[|[|n]]]; lra.
Qed.




Lemma scenario_positions_witness :
  exists st0 st outs x,
    mount (steady (1 # 2)) scenario 100 100 0 = Some st0
    /\ run (steady (1 # 2)) scenario (map Frame [16; 33; 50]%Z) st0 = Some (st, outs)
    /\ particleProps st !! (3 * 9)%nat = Some x
    /\ -51 <= x /\ x <= 151.
Proof.
  apply (scenario_positions (steady (1 # 2)) 0 [16; 33; 50]%Z 3).
  - exact steady_half_ok.
  - lia.
Defined.

(** The first particle starts at (99.5, 50) with a lifetime of 125 and is
    pushed to the right by 1 - 2^-j in frame j: after 52 frames its stored
    x is 150.5 + 2^-52. *)
Lemma scenario_positions_counterexample :
  env_ok drifting /\ noise_ok drifting
  /\ exists st0 st outs x,
       mount drifting scenario 100 100 0 = Some st0
       /\ run drifting scenario (map Frame (replicate 52 0%Z)) st0 = Some (st, outs)
       /\ particleProps st !! 0%nat = Some x
       /\ x == (301 # 2) + (1 # 4503599627370496)
       /\ 150 < x /\ ~ (-50 <= x /\ x <= 150).
Proof.
  split; [exact drifting_ok|]. split; [intros a b c; cbn; lra|].
  assert (Hcheck : exits_right = true) by (vm_compute; reflexivity).
  unfold exits_right in Hcheck.
  destruct (mount drifting scenario 100 100 0) as [st0|] eqn:Hm; [|discriminate].
  destruct (run drifting scenario (map Frame (replicate 52 0%Z)) st0)
    as [[st outs]|] eqn:Hrun; [|discriminate].
  destruct (particleProps st !! 0%nat) as [x|] eqn:Hx; [|discriminate].
  apply andb_true_iff in Hcheck as [Heq Hcheck].
  apply Qeq_bool_iff in Heq. apply Qltb_lt in Hcheck.
  exists st0, st, outs, x.
  split; [reflexivity|]. split; [exact Hrun|]. split; [exact Hx|].
  split; [exact Heq|]. split; [exact Hcheck|]. intros [_ H]. lra.
Qed.





(** With draws of 0 the particle is spawned at y = 50 + 400, below a canvas
    of 100 by 100: the first frame respawns it. *)
Lemma out_of_box_respawn_witness :
  exists st' out,
    animate (steady 0) still 16 (mounted (steady 0) still 100 100 0) = Some (st', out)
    /\ count_spawn 0 out = 1%nat
    /\ particleProps st' !! 4%nat = Some 0.
Proof.
  destruct (out_of_box_respawn (steady 0) still (mounted (steady 0) still 100 100 0)
              0 0 (900 # 2) 16)
    as [(st' & out & r & Hrun & Hcount & _ & _ & _ & Hage) _].
  - apply reachable_mounted.
  - cbn. lia.
  - vm_compute. reflexivity.
  - vm_compute. reflexivity.
  - right. right. right. vm_compute. reflexivity.
  - exists st', out. split; [exact Hrun|]. split; [exact Hcount|exact Hage].
Defined.

Lemma resize_keeps_buffer_witness :
  length (particleProps (mounted (steady (1 # 2)) scenario 100 100 0)) = 90%nat
  /\ particleProps (resize 640 480 (mounted (steady (1 # 2)) scenario 100 100 0))
     = particleProps (mounted (steady (1 # 2)) scenario 100 100 0).
Proof.
  destruct (resize_keeps_buffer (steady (1 # 2)) scenario 0
              (mounted (steady (1 # 2)) scenario 100 100 0) 640 480)
    as (_ & Hlen & _ & Hbuf & _).
  - apply reachable_mounted.
  - split; [exact Hlen|exact Hbuf].
Defined.

Lemma lifetime_positive_witness :
  exists life ttl a,
    particleProps (mounted (steady (1 # 2)) scenario 100 100 0) !! (4 + 2 * 9)%nat
      = Some life
    /\ particleProps (mounted (steady (1 # 2)) scenario 100 100 0) !! (5 + 2 * 9)%nat
      = Some ttl
    /\ constants.baseTTL <= ttl /\ 0 < ttl
    /\ fadeInOut life ttl = Some a /\ 0 <= a /\ a <= 1.
Proof.
  apply (lifetime_positive (steady (1 # 2)) scenario
           (mounted (steady (1 # 2)) scenario 100 100 0) 2 16).
  - exact steady_half_ok.
  - apply reachable_mounted.
  - cbn. lia.
Defined.


(** * Further properties of the code *)

(** ** Slots and rows *)

Lemma slot_rows st ps k : particleProps st = rows ps -> slot k st = ps !! k.
Proof.
  intros Hbuf. destruct (ps !! k) as [p|] eqn:Hp.
  - destruct (slot_fields st ps k p Hbuf Hp)
      as (H0 & H1 & H2 & H3 & H4 & H5 & H6 & H7 & H8).
    unfold slot, particlePropCount. cbv zeta.
    rewrite H0, H1, H2, H3, H4, H5, H6, H7, H8. by destruct p.
  - unfold slot. cbv zeta. rewrite Hbuf.
    rewrite (lookup_ge_None_2 (rows ps) (k * particlePropCount)); [reflexivity|].
    rewrite length_rows. apply lookup_ge_None_1 in Hp.
    unfold particlePropCount. lia.
Qed.

Section RowInvariants.

Context (E : Env) (P : VortexProps).
Context (keeps : Particle -> Prop).
Context (Hspawn : forall st, keeps (spawned E P st)).
Context (Hstep : forall i st p, keeps p -> keeps (step_slot E P i st p).1.1).

Lemma spawns_keep n : forall st, Forall keeps (spawns E P n st).
Proof.
  induction n as [|n IH]; intros st; [constructor|].
  cbn [spawns]. by constructor.
Qed.

(** A property of rows that every spawn has and every iteration keeps holds
    of all rows of all reachable states. *)
Lemma reachable_rows st :
  reachable E P st ->
  exists ps, particleProps st = rows ps /\ length ps = particleCount P
    /\ Forall keeps ps.
Proof.
  induction 1 as [w h now st Hm|ev st st' out _ (ps & Hbuf & Hlen & Hall) Hh].
  - rewrite mount_rows in Hm. injection Hm as <-.
    eexists. split; [reflexivity|]. split; [apply length_spawns|apply spawns_keep].
  - destruct ev as [now|w h]; cbn [handle] in Hh.
    + rewrite (animate_rows E P now st ps Hbuf Hlen) in Hh.
      pose proof (length_sweep E P ps 0 (frame_start E now st)) as Hlen'.
      pose proof (sweep_Forall E P keeps (frame_start E now st)
                    (fun i r p Hp => Hstep i _ p Hp)
                    ps 0%nat (randomCalls (frame_start E now st)) Hall) as Hall'.
      rewrite with_randomCalls_self in Hall'.
      destruct (sweep E P 0 (frame_start E now st) ps) as [[ps' r] out'].
      injection Hh as <- <-. exists ps'. cbn [fst] in *.
      split; [reflexivity|]. split; [congruence|exact Hall'].
    + injection Hh as <- <-. by exists ps.
Qed.

Lemma reachable_slot_keeps st k p :
  reachable E P st -> slot k st = Some p -> keeps p.
Proof.
  intros Hreach Hslot.
  destruct (reachable_rows st Hreach) as (ps & Hbuf & _ & Hall).
  rewrite (slot_rows st ps k Hbuf) in Hslot.
  exact (proj1 (Forall_lookup _ _) Hall k p Hslot).
Qed.

End RowInvariants.

Lemma reachable_slot_some E P st k :
  reachable E P st -> (k < particleCount P)%nat -> exists p, slot k st = Some p.
Proof.
  intros Hreach Hk.
  destruct (shaped_slot P st k (reachable_shaped E P st Hreach) Hk)
    as (ps & p & Hbuf & _ & Hp).
  exists p. by rewrite (slot_rows st ps k Hbuf).
Qed.


Lemma reachable_slot_good E P st k p :
  env_ok E -> reachable E P st -> slot k st = Some p ->
  good P (Qmin 0 (baseHue P)) (Qmax 359 (baseHue P)) p.
Proof.
  intros HE Hreach Hslot.
  destruct (reachable_good E P st HE Hreach) as [(ps & Hbuf & _ & Hall) _].
  rewrite (slot_rows st ps k Hbuf) in Hslot.
  exact (proj1 (Forall_lookup _ _) Hall k p Hslot).
Qed.

(** A frame on the slot of index [k]: one iteration on its row. *)
Lemma frame_on_slot E P now st k p :
  reachable E P st -> slot k st = Some p ->
  exists r st' out,
    animate E P now st = Some (st', out)
    /\ slot k st'
       = Some (step_slot E P (k * 9) (with_randomCalls r (frame_start E now st)) p).1.1
    /\ count_spawn (k * 9) out
       = count_spawn (k * 9)
           (step_slot E P (k * 9) (with_randomCalls r (frame_start E now st)) p).2.
Proof.
  intros Hreach Hslot.
  destruct (reachable_shaped E P st Hreach) as (ps & Hbuf & Hlen).
  rewrite (slot_rows st ps k Hbuf) in Hslot.
  destruct (frame_slot E P now st ps k p Hbuf Hlen Hslot)
    as (r & ps' & st' & out & Hrun & Hbuf' & _ & _ & _ & Hrow & Hcount).
  exists r, st', out. split; [exact Hrun|].
  rewrite (slot_rows st' ps' k Hbuf'). by split.
Qed.

(** ** What a frame does to one slot *)

Lemma animate_functional E P now st st1 out1 st2 out2 :
  animate E P now st = Some (st1, out1) -> animate E P now st = Some (st2, out2) ->
  st1 = st2 /\ out1 = out2.
Proof. intros H1 H2. rewrite H1 in H2. by injection H2. Qed.

Lemma count_spawn_step_slot E P i st p :
  count_spawn i (step_slot E P i st p).2
  = if out_of_box st (p_x p) (p_y p) || expired (moved E st p) then 1%nat else 0%nat.
Proof.
  unfold step_slot.
  destruct (out_of_box st (p_x p) (p_y p)); [|destruct (expired (moved E st p))];
    cbn [snd orb]; rewrite ?count_spawn_app, ?count_spawn_strokes_of, ?count_spawn_self;
    reflexivity.
Qed.

Lemma expired_moved E st p :
  expired (moved E st p) = Qltb (p_ttl p) (p_life p + 1).
Proof. reflexivity. Qed.

(** A frame calls [initParticle] on a slot at most once, and does so exactly
    when the stored position fails the position test or the age, once
    incremented, exceeds the lifetime. *)
Theorem respawn_exactly_when E P st k p now :
  reachable E P st -> slot k st = Some p ->
  exists st' out,
    animate E P now st = Some (st', out)
    /\ (count_spawn (k * 9) out <= 1)%nat
    /\ (count_spawn (k * 9) out = 1%nat <->
          (p_x p < -50 \/ N2Q (canvas_width st) + 50 < p_x p
           \/ p_y p < -50 \/ N2Q (canvas_height st) + 50 < p_y p)
          \/ p_ttl p < p_life p + 1).
Proof.
  intros Hreach Hslot.
  destruct (frame_on_slot E P now st k p Hreach Hslot)
    as (r & st' & out & Hrun & _ & Hcount).
  exists st', out. split; [exact Hrun|].
  rewrite Hcount, count_spawn_step_slot, out_of_box_frame_start, expired_moved.
  rewrite <- out_of_box_true, <- Qltb_lt.
  destruct (out_of_box st (p_x p) (p_y p)), (Qltb (p_ttl p) (p_life p + 1));
    cbn [orb]; split; try lia; intuition discriminate.
Qed.



(** ** Age, lifetime and the envelope *)

Lemma aged_spawned E P st : env_ok E -> aged (spawned E P st).
Proof.
  intros HE. destruct (spawned_ttl E P st HE) as [H0 _].
  split; [by exists 0%nat|].
  change (p_life (spawned E P st)) with 0. lra.
Qed.

Lemma aged_step_slot E P i st p :
  env_ok E -> aged p -> aged (step_slot E P i st p).1.1.
Proof.
  intros HE [[n Hn] Hle]. unfold step_slot.
  destruct (out_of_box st (p_x p) (p_y p)); [by apply aged_spawned|].
  destruct (expired (moved E st p)) eqn:Hexp; [by apply aged_spawned|].
  rewrite expired_moved in Hexp. apply Qltb_ge in Hexp.
  cbn [fst]. split; [|exact Hexp].
  exists (S n). cbn [moved p_life]. rewrite Qnat_S. lra.
Qed.

Lemma reachable_slot_aged E P st k p :
  env_ok E -> reachable E P st -> slot k st = Some p -> aged p.
Proof.
  intros HE.
  exact (reachable_slot_keeps E P aged (fun st => aged_spawned E P st HE)
           (fun i st p => aged_step_slot E P i st p HE) st k p).
Qed.

(** The age of every slot of every reachable state is a whole number of
    frames, between 0 and the lifetime of the slot. *)
Theorem age_within_lifetime E P st k p :
  env_ok E -> reachable E P st -> slot k st = Some p ->
  (exists n, p_life p == Qnat n) /\ 0 <= p_life p /\ p_life p <= p_ttl p.
Proof.
  intros HE Hreach Hslot.
  destruct (reachable_slot_aged E P st k p HE Hreach Hslot) as [[n Hn] Hle].
  split; [by exists n|]. split; [|exact Hle].
  rewrite Hn. apply Qnat_nonneg.
Qed.

Lemma fadeInOut_rise t m :
  0 < m -> 0 <= t -> t <= (1 # 2) * m ->
  exists a, fadeInOut t m = Some a /\ a == t / ((1 # 2) * m).
Proof.
  intros Hm Ht0 Ht1. unfold fadeInOut. cbv zeta.
  assert (Hhm : ~ (1 # 2) * m == 0) by lra.
  destruct (Qlt_le_dec t ((1 # 2) * m)) as [Hlt|Hge].
  - destruct (js_rem_first (t + (1 # 2) * m) m Hm) as (r & -> & Hr); [lra..|].
    cbn [mbind option_bind]. rewrite js_div_some by done.
    eexists; split; [reflexivity|].
    setoid_replace (r - (1 # 2) * m) with t using relation Qeq by lra.
    by rewrite Qabs_pos.
  - destruct (js_rem_second (t + (1 # 2) * m) m Hm) as (r & -> & Hr); [lra..|].
    cbn [mbind option_bind]. rewrite js_div_some by done.
    eexists; split; [reflexivity|].
    setoid_replace (r - (1 # 2) * m) with (- t) using relation Qeq by lra.
    by rewrite Qabs_opp, Qabs_pos.
Qed.

Lemma fadeInOut_fall t m :
  0 < m -> (1 # 2) * m <= t -> t <= m ->
  exists a, fadeInOut t m = Some a /\ a == (m - t) / ((1 # 2) * m).
Proof.
  intros Hm Ht0 Ht1. unfold fadeInOut. cbv zeta.
  assert (Hhm : ~ (1 # 2) * m == 0) by lra.
  destruct (js_rem_second (t + (1 # 2) * m) m Hm) as (r & -> & Hr); [lra..|].
  cbn [mbind option_bind]. rewrite js_div_some by done.
  eexists; split; [reflexivity|].
  setoid_replace (r - (1 # 2) * m) with (- (m - t)) using relation Qeq by lra.
  rewrite Qabs_opp, Qabs_pos by lra. reflexivity.
Qed.


(** ** The strokes and the calls of a frame, counted *)

Lemma count_effects_app f out1 out2 :
  count_effects f (out1 ++ out2) = (count_effects f out1 + count_effects f out2)%nat.
Proof. induction out1 as [|e out1 IH]; simpl; [reflexivity|]. rewrite IH. lia. Qed.

Lemma count_rows_app f ps qs :
  count_rows f (ps ++ qs) = (count_rows f ps + count_rows f qs)%nat.
Proof. induction ps as [|p ps IH]; simpl; [reflexivity|]. rewrite IH. lia. Qed.

Lemma count_rows_le f ps : (count_rows f ps <= length ps)%nat.
Proof. induction ps as [|p ps IH]; simpl; [lia|]. destruct (f p); lia. Qed.

Lemma count_slots_rows f st ps n :
  particleProps st = rows ps -> (n <= length ps)%nat ->
  count_slots f n st = count_rows (f st) (take n ps).
Proof.
  intros Hbuf. induction n as [|n IH]; intros Hn; [reflexivity|].
  cbn [count_slots]. rewrite IH by lia.
  destruct (lookup_lt_is_Some_2 ps n) as [p Hp]; [lia|].
  rewrite (slot_rows st ps n Hbuf), Hp, (take_S_r ps n p Hp), count_rows_app.
  simpl. lia.
Qed.

(** The effects of the loop counted through the effects of its iterations. *)
Lemma sweep_count E P (g : Effect -> bool) (f : Particle -> bool) (st0 : Vortex) :
  (forall i r p,
     count_effects g (step_slot E P i (with_randomCalls r st0) p).2
     = if f p then 1%nat else 0%nat) ->
  forall ps k r,
    count_effects g (sweep E P k (with_randomCalls r st0) ps).2 = count_rows f ps.
Proof.
  intros Hstep ps. induction ps as [|p ps IH]; intros k r; [reflexivity|].
  cbn [sweep count_rows].
  pose proof (Hstep (k * particlePropCount)%nat r p) as Hp.
  destruct (step_slot E P (k * particlePropCount) (with_randomCalls r st0) p)
    as [[p' r1] out].
  specialize (IH (S k) r1).
  change (with_randomCalls r1 (with_randomCalls r st0))
    with (with_randomCalls r1 st0).
  destruct (sweep E P (S k) (with_randomCalls r1 st0) ps) as [[ps' r'] out'].
  cbn [snd] in *. by rewrite count_effects_app, Hp, IH.
Qed.

Lemma count_strokes_drawParticle x y x2 y2 life ttl radius hue :
  count_effects is_stroke (drawParticle x y x2 y2 life ttl radius hue)
  = match fadeInOut life ttl with
    | Some a => if Qltb a (1 # 100) then 0%nat else 1%nat
    | None => 1%nat
    end.
Proof.
  unfold drawParticle. destruct (fadeInOut life ttl) as [a|]; [|reflexivity].
  by destruct (Qltb a (1 # 100)).
Qed.

Lemma count_calls_drawParticle x y x2 y2 life ttl radius hue :
  count_effects is_call (drawParticle x y x2 y2 life ttl radius hue) = 0%nat.
Proof.
  unfold drawParticle. destruct (fadeInOut life ttl) as [a|]; [|reflexivity].
  by destruct (Qltb a (1 # 100)).
Qed.

Lemma step_slot_strokes E P i st p :
  count_effects is_stroke (step_slot E P i st p).2
  = if visible st p then 1%nat else 0%nat.
Proof.
  unfold step_slot, visible, strokes_of. cbv zeta.
  destruct (out_of_box st (p_x p) (p_y p)); [reflexivity|].
  cbn [negb andb].
  destruct (expired (moved E st p)); cbn [snd];
    rewrite ?count_effects_app, count_strokes_drawParticle;
    destruct (fadeInOut (p_life p) (p_ttl p)) as [a|];
    try destruct (Qltb a (1 # 100)); reflexivity.
Qed.

Lemma step_slot_calls E P i st p :
  count_effects is_call (step_slot E P i st p).2
  = if doomed st p then 1%nat else 0%nat.
Proof.
  unfold step_slot, doomed, strokes_of. cbv zeta. rewrite <- (expired_moved E st).
  destruct (out_of_box st (p_x p) (p_y p)); [reflexivity|].
  cbn [orb].
  destruct (expired (moved E st p)); cbn [snd];
    rewrite ?count_effects_app, count_calls_drawParticle; reflexivity.
Qed.

(** Each call of [initParticle] by the loop draws six random numbers. *)
Lemma sweep_draws E P ps : forall k st,
  (sweep E P k st ps).1.2
  = (randomCalls st + 6 * count_effects is_call (sweep E P k st ps).2)%nat.
Proof.
  induction ps as [|p ps IH]; intros k st; [cbn; lia|].
  cbn [sweep].
  assert (Hp : (step_slot E P (k * particlePropCount) st p).1.2
    = (randomCalls st
       + 6 * count_effects is_call (step_slot E P (k * particlePropCount) st p).2)%nat).
  { rewrite step_slot_calls. unfold step_slot, doomed. rewrite <- (expired_moved E st).
    destruct (out_of_box st (p_x p) (p_y p)); [cbn; lia|].
    destruct (expired (moved E st p)); cbn; lia. }
  destruct (step_slot E P (k * particlePropCount) st p) as [[p' r] out].
  specialize (IH (S k) (with_randomCalls r st)).
  destruct (sweep E P (S k) (with_randomCalls r st) ps) as [[ps' r'] out'].
  cbn [fst snd] in *. rewrite count_effects_app, IH.
  change (randomCalls (with_randomCalls r st)) with r. lia.
Qed.

Lemma visible_frame_start E now r st p :
  visible (with_randomCalls r (frame_start E now st)) p = visible st p.
Proof. unfold visible. by rewrite out_of_box_frame_start. Qed.

Lemma doomed_frame_start E now r st p :
  doomed (with_randomCalls r (frame_start E now st)) p = doomed st p.
Proof. unfold doomed. by rewrite out_of_box_frame_start. Qed.

Lemma randomCalls_frame_start E now st :
  randomCalls (frame_start E now st)
  = (randomCalls st + if color_due now st then 1 else 0)%nat.
Proof.
  unfold frame_start, updateColor, color_due.
  change (lastColorChangeRef (next_tick st)) with (lastColorChangeRef st).
  destruct (constants.COLOR_CHANGE_INTERVAL <=? now - lastColorChangeRef st)%Z;
    cbn; lia.
Qed.

Lemma animate_strokes E P st now :
  reachable E P st ->
  exists st' out,
    animate E P now st = Some (st', out)
    /\ count_strokes out = count_slots visible (particleCount P) st
    /\ (count_strokes out <= particleCount P)%nat.
Proof.
  intros Hreach.
  destruct (reachable_shaped E P st Hreach) as (ps & Hbuf & Hlen).
  rewrite (animate_rows E P now st ps Hbuf Hlen).
  pose proof (sweep_count E P is_stroke (visible st) (frame_start E now st)
                (fun i r p => eq_trans (step_slot_strokes E P i _ p)
                   (f_equal (fun b : bool => if b then 1%nat else 0%nat)
                      (visible_frame_start E now r st p)))
                ps 0%nat (randomCalls (frame_start E now st))) as Hcount.
  rewrite with_randomCalls_self in Hcount.
  destruct (sweep E P 0 (frame_start E now st) ps) as [[ps' r] out].
  do 2 eexists. split; [reflexivity|]. cbn [snd] in Hcount.
  unfold count_strokes. rewrite Hcount.
  rewrite (count_slots_rows visible st ps _ Hbuf) by lia.
  rewrite <- Hlen, firstn_all. split; [reflexivity|apply count_rows_le].
Qed.

(** A frame strokes one segment for each slot that passes the position test
    with an envelope of at least 0.01, and no other: never more strokes than
    particles. *)
Theorem frame_strokes_counted E P st now :
  reachable E P st ->
  exists st' out,
    animate E P now st = Some (st', out)
    /\ count_strokes out = count_slots visible (particleCount P) st
    /\ (count_strokes out <= particleCount P)%nat.
Proof. apply animate_strokes. Qed.

(** A frame calls [initParticle] once for each slot that fails the position
    test or whose incremented age exceeds its lifetime, and no other time;
    it draws six random numbers for each call, and one more when it draws a
    new target hue. *)
Theorem frame_calls_counted E P st now :
  reachable E P st ->
  exists st' out,
    animate E P now st = Some (st', out)
    /\ count_calls out = count_slots doomed (particleCount P) st
    /\ (count_calls out <= particleCount P)%nat
    /\ randomCalls st'
       = (randomCalls st + (if color_due now st then 1 else 0)
          + 6 * count_calls out)%nat.
Proof.
  intros Hreach.
  destruct (reachable_shaped E P st Hreach) as (ps & Hbuf & Hlen).
  rewrite (animate_rows E P now st ps Hbuf Hlen).
  pose proof (sweep_count E P is_call (doomed st) (frame_start E now st)
                (fun i r p => eq_trans (step_slot_calls E P i _ p)
                   (f_equal (fun b : bool => if b then 1%nat else 0%nat)
                      (doomed_frame_start E now r st p)))
                ps 0%nat (randomCalls (frame_start E now st))) as Hcount.
  rewrite with_randomCalls_self in Hcount.
  pose proof (sweep_draws E P ps 0 (frame_start E now st)) as Hdraws.
  destruct (sweep E P 0 (frame_start E now st) ps) as [[ps' r] out].
  do 2 eexists. split; [reflexivity|]. cbn [fst snd] in Hcount, Hdraws.
  unfold count_calls. rewrite Hcount.
  rewrite (count_slots_rows doomed st ps _ Hbuf) by lia.
  rewrite <- Hlen, firstn_all. split; [reflexivity|].
  split; [apply count_rows_le|].
  cbn [randomCalls with_randomCalls]. rewrite Hdraws, Hcount.
  by rewrite randomCalls_frame_start.
Qed.

(** ** Runs *)

(** The fields of the state, other than the buffer and the count of random
    draws, after a frame. *)
Lemma animate_fields E P now st :
  shaped P st ->
  exists st' out,
    animate E P now st = Some (st', out)
    /\ tick st' = (tick st + 1)%Z
    /\ lastColorChangeRef st'
       = (if color_due now st then now else lastColorChangeRef st)
    /\ targetColorRef st'
       = (if color_due now st then getNextColor E (randomCalls st)
          else targetColorRef st)
    /\ colorTransitionRef st'
       = lerp (colorTransitionRef st) (targetColorRef st') constants.TRANSITION_SPEED
    /\ canvas_width st' = canvas_width st
    /\ canvas_height st' = canvas_height st
    /\ center st' = center st.
Proof.
  intros (ps & Hbuf & Hlen).
  rewrite (animate_rows E P now st ps Hbuf Hlen).
  destruct (sweep E P 0 (frame_start E now st) ps) as [[ps' r] out'].
  do 2 eexists. split; [reflexivity|].
  unfold frame_start, updateColor, color_due.
  change (lastColorChangeRef (next_tick st)) with (lastColorChangeRef st).
  destruct (constants.COLOR_CHANGE_INTERVAL <=? now - lastColorChangeRef st)%Z;
    by cbn.
Qed.

Lemma run_reachable E P evs : forall st,
  reachable E P st ->
  exists st' outs,
    run E P evs st = Some (st', outs)
    /\ reachable E P st' /\ length outs = length evs.
Proof.
  induction evs as [|ev evs IH]; intros st Hreach.
  - by exists st, [].
  - assert (Hev : exists st1 out, handle E P ev st = Some (st1, out)).
    { destruct ev as [now|w' h']; cbn [handle]; [|by eauto].
      destruct (animate_total E P now st (reachable_shaped E P st Hreach))
        as (st1 & out & Hrun & _). by eauto. }
    destruct Hev as (st1 & out & Hev).
    destruct (IH st1 (reachable_handle E P ev st st1 out Hreach Hev))
      as (st' & outs & Hrun & Hreach' & Hlen).
    exists st', (out :: outs). cbn [run]. rewrite Hev. cbn [mbind option_bind].
    rewrite Hrun. cbn [mbind option_bind length].
    split; [reflexivity|]. split; [exact Hreach'|]. by rewrite Hlen.
Qed.


Lemma reachable_center E P st :
  reachable E P st ->
  center st = ((1 # 2) * N2Q (canvas_width st), (1 # 2) * N2Q (canvas_height st)).
Proof.
  induction 1 as [w h now st Hm|ev st st' out Hreach IH Hh].
  - rewrite mount_rows in Hm. by injection Hm as <-.
  - destruct ev as [now|w h]; cbn [handle] in Hh.
    + destruct (animate_fields E P now st (reachable_shaped E P st Hreach))
        as (st2 & out2 & Hrun & _ & _ & _ & _ & Hw & Hh' & Hc).
      rewrite Hrun in Hh. injection Hh as <- <-. by rewrite Hw, Hh', Hc.
    + by injection Hh as <- <-.
Qed.

(** Across a run the tick advances by the number of frames, the canvas has
    the size of the last resize, and the centre is the middle of the canvas;
    the buffer keeps its length. *)
Theorem run_bookkeeping E P st evs :
  reachable E P st ->
  exists st' outs,
    run E P evs st = Some (st', outs)
    /\ tick st' = (tick st + Z.of_nat (count_frames evs))%Z
    /\ (canvas_width st', canvas_height st')
       = last_size evs (canvas_width st) (canvas_height st)
    /\ center st'
       = ((1 # 2) * N2Q (canvas_width st'), (1 # 2) * N2Q (canvas_height st'))
    /\ length (particleProps st') = length (particleProps st).
Proof.
  intros Hreach.
  destruct (run_reachable E P evs st Hreach) as (st' & outs & Hrun & Hreach' & _).
  exists st', outs. split; [exact Hrun|].
  split; [|split; [|split; [by apply (reachable_center E P)|]]].
  - clear Hreach'. revert st st' outs Hreach Hrun.
    induction evs as [|ev evs IH]; intros st st' outs Hreach Hrun.
    + injection Hrun as <- <-. cbn. lia.
    + cbn [run] in Hrun.
      destruct (handle E P ev st) as [[st1 out]|] eqn:Hev; [|done].
      cbn [mbind option_bind] in Hrun.
      destruct (run E P evs st1) as [[st2 outs2]|] eqn:Hrun1; [|done].
      injection Hrun as <- <-.
      rewrite (IH st1 st2 outs2 (reachable_handle E P ev st st1 out Hreach Hev) Hrun1).
      destruct ev as [now|w h]; cbn [handle count_frames] in *.
      * destruct (animate_fields E P now st (reachable_shaped E P st Hreach))
          as (sta & outa & Ha & Htick & _).
        rewrite Ha in Hev. injection Hev as <- <-. rewrite Htick. lia.
      * injection Hev as <- <-. cbn. lia.
  - clear Hreach'. revert st st' outs Hreach Hrun.
    induction evs as [|ev evs IH]; intros st st' outs Hreach Hrun.
    + by injection Hrun as <- <-.
    + cbn [run] in Hrun.
      destruct (handle E P ev st) as [[st1 out]|] eqn:Hev; [|done].
      cbn [mbind option_bind] in Hrun.
      destruct (run E P evs st1) as [[st2 outs2]|] eqn:Hrun1; [|done].
      injection Hrun as <- <-.
      rewrite (IH st1 st2 outs2 (reachable_handle E P ev st st1 out Hreach Hev) Hrun1).
      destruct ev as [now|w h]; cbn [handle last_size] in *.
      * destruct (animate_fields E P now st (reachable_shaped E P st Hreach))
          as (sta & outa & Ha & _ & _ & _ & _ & Hw & Hh & _).
        rewrite Ha in Hev. injection Hev as <- <-. by rewrite Hw, Hh.
      * by injection Hev as <- <-.
  - rewrite (shaped_length P st' (reachable_shaped E P st' Hreach')).
    by rewrite (shaped_length P st (reachable_shaped E P st Hreach)).
Qed.

(** ** The global hue over time *)

Lemma getNextColor_integer E k :
  env_ok E -> exists z, (0 <= z <= 359)%Z /\ getNextColor E k = inject_Z z.
Proof.
  intros HE. unfold getNextColor. destruct (random_range E HE k) as [H0 H1].
  exists (Qfloor (Math_random E k * 360)). split; [|reflexivity].
  split.
  - change 0%Z with (Qfloor 0). apply Qfloor_resp_le. lra.
  - assert (Hlt : (Qfloor (Math_random E k * 360) < 360)%Z); [|lia].
    rewrite Zlt_Qlt. change (inject_Z 360) with 360.
    pose proof (Qfloor_le (Math_random E k * 360)). lra.
Qed.

(** In every reachable state the target hue is [baseHue] or a whole number
    of degrees from 0 to 359, and the current hue and the target hue lie
    between the least and the greatest of 0, 359 and [baseHue]. *)
Theorem global_hue_range E P st :
  env_ok E -> reachable E P st ->
  (targetColorRef st = baseHue P
   \/ exists z, (0 <= z <= 359)%Z /\ targetColorRef st = inject_Z z)
  /\ (Qmin 0 (baseHue P) <= colorTransitionRef st
      /\ colorTransitionRef st <= Qmax 359 (baseHue P))
  /\ (Qmin 0 (baseHue P) <= targetColorRef st
      /\ targetColorRef st <= Qmax 359 (baseHue P)).
Proof.
  intros HE Hreach. split; [|exact (wf_hue _ _ _ _ (reachable_good E P st HE Hreach))].
  induction Hreach as [w h now st Hm|ev st st' out Hreach IH Hh].
  - left. rewrite mount_rows in Hm. by injection Hm as <-.
  - destruct ev as [now|w h]; cbn [handle] in Hh.
    + destruct (animate_fields E P now st (reachable_shaped E P st Hreach))
        as (st2 & out2 & Hrun & _ & _ & Htgt & _).
      rewrite Hrun in Hh. injection Hh as <- <-. rewrite Htgt.
      destruct (color_due now st); [|exact IH].
      right. by apply getNextColor_integer.
    + by injection Hh as <- <-.
Qed.

Lemma color_due_false now st :
  (now - lastColorChangeRef st < 20000)%Z -> color_due now st = false.
Proof. intros H. unfold color_due, constants.COLOR_CHANGE_INTERVAL. lia. Qed.


(** ** Where and how particles are spawned *)


Lemma spawns_lookup E P n : forall st k,
  (k < n)%nat ->
  spawns E P n st !! k
  = Some (spawned E P (with_randomCalls (randomCalls st + 6 * k) st)).
Proof.
  induction n as [|n IH]; intros st k Hk; [lia|].
  cbn [spawns]. destruct k as [|k].
  - cbn [lookup list_lookup]. by rewrite Nat.mul_0_r, Nat.add_0_r, with_randomCalls_self.
  - cbn [lookup list_lookup]. change (?l !! k) with (spawns E P n
      (with_randomCalls (randomCalls st + 6) st) !! k).
    rewrite IH by lia.
    change (randomCalls (with_randomCalls ?r st)) with r.
    change (with_randomCalls ?a (with_randomCalls ?b st)) with (with_randomCalls a st).
    do 3 f_equal. lia.
Qed.

Lemma mounted_slot E P w h now k :
  (k < particleCount P)%nat ->
  slot k (mounted E P w h now)
  = Some (spawned E P (with_randomCalls (6 * k) (resize w h (allocate P now)))).
Proof.
  intros Hk. unfold mounted. rewrite mount_rows. cbn [default from_option].
  erewrite slot_rows by reflexivity.
  by rewrite spawns_lookup.
Qed.


(** ** Where a frame leaves a particle *)

Lemma drawn_speed_bound P s v :
  (forall r, 0 <= r -> r < 1 -> Qabs (baseSpeed P + rangeSpeed P * r) <= s) ->
  drawn_from (baseSpeed P) (rangeSpeed P) v -> Qabs v <= s.
Proof. intros Hs (r & H0 & H1 & ->). by apply Hs. Qed.

(** After a frame the x of every slot is within one step of the box of the
    canvas, whatever it was before the frame, and so is the y of every slot
    that the frame did not respawn; a step is at most [s], a bound on the
    speeds that can be drawn. *)
Theorem position_after_frame E P st now k s :
  env_ok E ->
  (forall r, 0 <= r -> r < 1 -> Qabs (baseSpeed P + rangeSpeed P * r) <= s) ->
  reachable E P st -> (k < particleCount P)%nat ->
  exists st' out p',
    animate E P now st = Some (st', out) /\ slot k st' = Some p'
    /\ canvas_width st' = canvas_width st /\ canvas_height st' = canvas_height st
    /\ (-50 - s <= p_x p' /\ p_x p' <= N2Q (canvas_width st) + 50 + s)
    /\ (count_spawn (k * 9) out = 0%nat ->
        -50 - s <= p_y p' /\ p_y p' <= N2Q (canvas_height st) + 50 + s).
Proof.
  intros HE Hs Hreach Hk.
  destruct (reachable_slot_some E P st k Hreach Hk) as [p Hslot].
  pose proof (reachable_slot_good E P st k p HE Hreach Hslot) as Hgood.
  pose proof (drawn_speed_bound P s _ Hs (good_speed _ _ _ _ Hgood)) as Hsp.
  assert (Hs0 : 0 <= s) by (pose proof (Qabs_nonneg (p_speed p)); lra).
  destruct (frame_on_slot E P now st k p Hreach Hslot)
    as (r & st' & out & Hrun & Hrow & Hcount).
  destruct (animate_fields E P now st (reachable_shaped E P st Hreach))
    as (st2 & out2 & Hrun2 & _ & _ & _ & _ & Hw & Hh & _).
  destruct (animate_functional E P now st _ _ _ _ Hrun Hrun2) as [<- <-].
  do 3 eexists. split; [exact Hrun|]. split; [exact Hrow|].
  split; [exact Hw|]. split; [exact Hh|].
  rewrite Hcount, count_spawn_step_slot. unfold step_slot.
  rewrite out_of_box_frame_start.
  assert (Hspawn : -50 - s <= p_x (spawned E P (with_randomCalls r (frame_start E now st)))
    /\ p_x (spawned E P (with_randomCalls r (frame_start E now st)))
       <= N2Q (canvas_width st) + 50 + s).
  { unfold spawned, rand. cbn [p_x].
    change (canvas_width (with_randomCalls r (frame_start E now st)))
      with (canvas_width (frame_start E now st)).
    rewrite canvas_width_frame_start.
    pose proof (N2Q_nonneg (canvas_width st)) as HW.
    destruct (random_range E HE (randomCalls (with_randomCalls r (frame_start E now st))))
      as [Hr0 Hr1].
    set (W := N2Q (canvas_width st)) in *.
    set (u := Math_random E _) in *.
    assert (0 <= W * u) by (by apply Qmult_le_0_compat).
    assert (0 <= W * (1 - u)) by (apply Qmult_le_0_compat; lra).
    split; lra. }
  destruct (out_of_box st (p_x p) (p_y p)) eqn:Hin; cbn [orb fst].
  { split; [exact Hspawn|discriminate]. }
  destruct (expired _); cbn [fst].
  { split; [exact Hspawn|discriminate]. }
  apply out_of_box_false in Hin as [[Hx0 Hx1] [Hy0 Hy1]].
  destruct (moved_displacement E (with_randomCalls r (frame_start E now st)) p HE
              (good_vx _ _ _ _ Hgood) (good_vy _ _ _ _ Hgood)) as [Hdx Hdy].
  apply Qabs_Qle_condition in Hdx, Hdy. split; [|intros _]; split; lra.
Qed.

(** ** One iteration on the flat buffer *)

Lemma splice_lookup (pre mid mid' post : list Q) j :
  length mid = length mid' ->
  (j < length pre \/ length pre + length mid <= j)%nat ->
  (pre ++ mid' ++ post) !! j = (pre ++ mid ++ post) !! j.
Proof.
  intros Hlen [Hj|Hj].
  - by rewrite !lookup_app_l.
  - rewrite !lookup_app_r by lia. f_equal. lia.
Qed.

Lemma slot_split (buf : list Q) i :
  (i + 9 <= length buf)%nat ->
  exists p, buf = take i buf ++ row p ++ drop (i + 9) buf.
Proof.
  intros Hfit.
  assert (Hmid : length (take 9 (drop i buf)) = 9%nat).
  { rewrite length_take, length_drop. lia. }
  destruct (take 9 (drop i buf)) as [|x [|y [|vx [|vy [|life [|ttl [|speed
    [|radius [|hue [|? ?]]]]]]]]]] eqn:Hcells; try discriminate.
  exists (mkParticle x y vx vy life ttl speed radius hue).
  change (row _) with [x; y; vx; vy; life; ttl; speed; radius; hue].
  rewrite <- Hcells, <- (drop_drop buf 9 i), take_drop.
  by rewrite take_drop.
Qed.

(** An iteration of the loop on a slot that fits in the buffer reaches its
    end, changes no cell outside the nine of the slot, keeps the length of
    the buffer and every other field of the state but the count of random
    draws, to which it adds 0 or 6, and has at most two effects. *)
Theorem updateParticle_frame E P i st :
  (i + 9 <= length (particleProps st))%nat ->
  exists st' out,
    updateParticle E P i st = Some (st', out)
    /\ length (particleProps st') = length (particleProps st)
    /\ (forall j, (j < i \/ i + 9 <= j)%nat ->
          particleProps st' !! j = particleProps st !! j)
    /\ canvas_width st' = canvas_width st /\ canvas_height st' = canvas_height st
    /\ center st' = center st
    /\ colorTransitionRef st' = colorTransitionRef st
    /\ targetColorRef st' = targetColorRef st
    /\ lastColorChangeRef st' = lastColorChangeRef st
    /\ tick st' = tick st
    /\ (randomCalls st' = randomCalls st \/ randomCalls st' = (randomCalls st + 6)%nat)
    /\ (length out <= 2)%nat.
Proof.
  intros Hfit.
  destruct (slot_split (particleProps st) i Hfit) as [p Hbuf].
  assert (Hpre : length (take i (particleProps st)) = i) by (rewrite length_take; lia).
  pose proof (updateParticle_at E P st _ p _ Hbuf) as Hstep.
  rewrite Hpre in Hstep. rewrite Hstep.
  assert (Hcells : forall q j, (j < i \/ i + 9 <= j)%nat ->
    (take i (particleProps st) ++ row q ++ drop (i + 9) (particleProps st)) !! j
    = particleProps st !! j).
  { intros q j Hj. rewrite Hbuf at 3. apply splice_lookup; [reflexivity|].
    rewrite Hpre. exact Hj. }
  assert (Hlen : forall q,
    length (take i (particleProps st) ++ row q ++ drop (i + 9) (particleProps st))
    = length (particleProps st)).
  { intros q. rewrite Hbuf at 3. by rewrite !length_app. }
  assert (Hdraw : (length (strokes_of E st p) <= 1)%nat).
  { unfold strokes_of, drawParticle. cbv zeta.
    destruct (fadeInOut (p_life p) (p_ttl p)) as [a|]; [|cbn; lia].
    destruct (Qltb a (1 # 100)); cbn; lia. }
  destruct (out_of_box st (p_x p) (p_y p)); [|destruct (expired (moved E st p))];
    do 2 eexists; (split; [reflexivity|]);
    cbn [particleProps canvas_width canvas_height center colorTransitionRef
         targetColorRef lastColorChangeRef tick randomCalls
         with_randomCalls with_particleProps];
    (split; [apply Hlen|]); (split; [apply Hcells|]);
    repeat (split; [reflexivity|]).
  - split; [by right|cbn; lia].
  - split; [by right|]. rewrite length_app. cbn. lia.
  - split; [by left|lia].
Qed.

(** ** Which particles are stroked *)

Lemma Qnat_pos_ge_1 n : 0 < Qnat n -> 1 <= Qnat n.
Proof.
  destruct n as [|n]; [intros H; vm_compute in H; discriminate|].
  intros _. rewrite Qnat_S. pose proof (Qnat_nonneg n). lra.
Qed.

(** An envelope of at least 0.01 is reached from the first frame after the
    spawn on and lost before the age reaches the lifetime. *)
Lemma envelope_age t m a n :
  50 <= m -> 0 <= t -> t <= m -> t == Qnat n ->
  fadeInOut t m = Some a -> 1 # 100 <= a -> 1 <= t /\ t < m.
Proof.
  intros Hm Ht0 Ht1 Hn Hfade Ha.
  assert (Hpos : 0 < m) by lra.
  pose proof (fadeInOut_rise t m) as Hrise. pose proof (fadeInOut_fall t m) as Hfall.
  assert (Hhm : 0 < (1 # 2) * m) by lra.
  destruct (Qlt_le_dec t ((1 # 2) * m)) as [Hlow|Hhigh].
  - destruct (Hrise Hpos Ht0 ltac:(lra)) as (a' & Hfade' & Heq).
    assert (a' = a) by congruence. subst a'.
    assert (Ht : t == a * ((1 # 2) * m)) by (rewrite Heq; field; lra).
    assert (Hprod : (1 # 100) * ((1 # 2) * m) <= a * ((1 # 2) * m)).
    { apply Qmult_le_compat_r; lra. }
    assert (0 < t) by lra.
    split; [|lra]. rewrite Hn. apply Qnat_pos_ge_1. by rewrite <- Hn.
  - destruct (Hfall Hpos Hhigh Ht1) as (a' & Hfade' & Heq).
    assert (a' = a) by congruence. subst a'.
    assert (Ht : m - t == a * ((1 # 2) * m)) by (rewrite Heq; field; lra).
    assert (Hprod : (1 # 100) * ((1 # 2) * m) <= a * ((1 # 2) * m)).
    { apply Qmult_le_compat_r; lra. }
    split; lra.
Qed.

Lemma strokes_of_provenance E P lo hi st p :
  env_ok E -> good P lo hi p -> aged p ->
  Forall (fun e => is_stroke e = true ->
            stroke_of_row p e /\ 1 <= p_life p /\ p_life p < p_ttl p)
    (strokes_of E st p).
Proof.
  intros HE Hgood [[n Hn] Hle].
  destruct (good_ttl _ _ _ _ Hgood) as [Ht0 _].
  pose proof (good_life _ _ _ _ Hgood) as Hl0.
  unfold strokes_of, drawParticle. cbv zeta.
  destruct (fadeInOut_range (p_life p) (p_ttl p) Hl0 ltac:(lra)) as (a & Ha & _).
  rewrite Ha. destruct (Qltb a (1 # 100)) eqn:Hlt; [constructor|].
  apply Qltb_ge in Hlt.
  constructor; [|constructor]. intros _.
  destruct (moved_displacement E st p HE (good_vx _ _ _ _ Hgood) (good_vy _ _ _ _ Hgood))
    as [Hdx Hdy].
  split; [|exact (envelope_age _ _ a n Ht0 Hl0 Hle Hn Ha Hlt)].
  cbn [stroke_of_row]. do 3 (split; [reflexivity|]).
  split; [exact Hdx|]. split; [exact Hdy|]. by exists a.
Qed.

(** Every stroke of a frame is the stroke of a slot that passes the position
    test: it starts at the stored position of the slot, is as wide as its
    radius, is at most as long as its speed along each axis, and has its
    envelope as alpha; the slot is at least one frame old and its age is
    below its lifetime, so a particle is never stroked in the frame that
    follows its spawn. *)
Theorem stroke_provenance E P st now :
  env_ok E -> reachable E P st ->
  exists st' out,
    animate E P now st = Some (st', out)
    /\ Forall (fun e => is_stroke e = true ->
         exists k p, slot k st = Some p
           /\ out_of_box st (p_x p) (p_y p) = false
           /\ stroke_of_row p e
           /\ 1 <= p_life p /\ p_life p < p_ttl p) out.
Proof.
  intros HE Hreach.
  destruct (reachable_shaped E P st Hreach) as (ps & Hbuf & Hlen).
  rewrite (animate_rows E P now st ps Hbuf Hlen).
  set (from_slot := fun p : Particle =>
    exists k, slot k st = Some p
      /\ good P (Qmin 0 (baseHue P)) (Qmax 359 (baseHue P)) p /\ aged p).
  assert (Hall : Forall from_slot ps).
  { apply Forall_lookup. intros k p Hp. exists k.
    assert (Hslot : slot k st = Some p) by (by rewrite (slot_rows st ps k Hbuf)).
    split; [exact Hslot|].
    split; [by apply (reachable_slot_good E P st k)|].
    by apply (reachable_slot_aged E P st k). }
  set (from_st := fun e : Effect => is_stroke e = true ->
    exists k p, slot k st = Some p
      /\ out_of_box st (p_x p) (p_y p) = false
      /\ stroke_of_row p e
      /\ 1 <= p_life p /\ p_life p < p_ttl p).
  assert (Hstep : forall i r p, from_slot p ->
    Forall from_st (step_slot E P i (with_randomCalls r (frame_start E now st)) p).2).
  { intros i r p (k & Hslot & Hgood & Haged). unfold step_slot.
    rewrite out_of_box_frame_start.
    destruct (out_of_box st (p_x p) (p_y p)) eqn:Hin.
    { cbn [snd]. constructor; [discriminate|constructor]. }
    assert (Hstrokes : Forall from_st
       (strokes_of E (with_randomCalls r (frame_start E now st)) p)).
    { eapply Forall_impl;
        [exact (strokes_of_provenance E P _ _ _ p HE Hgood Haged)|].
      intros e He Hstroke. destruct (He Hstroke) as (Hrow & H1 & H2).
      by exists k, p. }
    destruct (expired _); cbn [snd]; [|exact Hstrokes].
    apply Forall_app. split; [exact Hstrokes|].
    constructor; [discriminate|constructor]. }
  pose proof (sweep_effects E P from_slot from_st (frame_start E now st) Hstep
                ps 0%nat (randomCalls (frame_start E now st)) Hall) as Heff.
  rewrite with_randomCalls_self in Heff.
  destruct (sweep E P 0 (frame_start E now st) ps) as [[ps' r] out].
  by do 2 eexists.
Qed.

Lemma count_slots_none f n st :
  (forall k p, (k < n)%nat -> slot k st = Some p -> f st p = false) ->
  count_slots f n st = 0%nat.
Proof.
  induction n as [|n IH]; intros Hnone; [reflexivity|].
  cbn [count_slots]. rewrite IH by (intros k p Hk; apply Hnone; lia).
  destruct (slot n st) as [p|] eqn:Hp; [|reflexivity].
  by rewrite (Hnone n p) by (lia || done).
Qed.

Lemma visible_newborn st p :
  p_life p = 0 -> 0 < p_ttl p -> visible st p = false.
Proof.
  intros Hlife Httl. unfold visible. rewrite Hlife.
  destruct (fadeInOut_rise 0 (p_ttl p) Httl) as (a & -> & Ha); [lra..|].
  assert (Hzero : a == 0) by (rewrite Ha; field; lra).
  assert (Hlt : Qltb a (1 # 100) = true) by (apply Qltb_lt; lra).
  rewrite Hlt. apply andb_false_r.
Qed.

(** The first frame after mounting strokes nothing: every particle has age
    0, where the envelope is 0. *)
Theorem first_frame_blank E P w h now0 now :
  env_ok E ->
  exists st0 st' out,
    mount E P w h now0 = Some st0
    /\ animate E P now st0 = Some (st', out)
    /\ count_strokes out = 0%nat.
Proof.
  intros HE.
  pose proof (reachable_mounted E P w h now0) as Hreach.
  destruct (animate_strokes E P _ now Hreach) as (st' & out & Hrun & Hcount & _).
  exists (mounted E P w h now0), st', out.
  split; [apply mount_mounted|]. split; [exact Hrun|].
  rewrite Hcount. apply count_slots_none. intros k p Hk Hslot.
  rewrite (mounted_slot E P w h now0 k Hk) in Hslot.
  assert (Hp : p = spawned E P (with_randomCalls (6 * k) (resize w h (allocate P now0))))
    by congruence.
  rewrite Hp. apply visible_newborn; [reflexivity|].
  destruct (spawned_ttl E P (with_randomCalls (6 * k) (resize w h (allocate P now0))) HE).
  lra.
Qed.

(** ** The empty field *)

(** With [particleCount] = 0 the buffer is empty in every reachable state,
    mounting draws no random number, and a frame runs to its end without a
    stroke or a call of [initParticle]. *)
Theorem empty_field E P st w h now0 now :
  particleCount P = 0%nat -> reachable E P st ->
  (exists st0, mount E P w h now0 = Some st0
     /\ particleProps st0 = [] /\ randomCalls st0 = 0%nat)
  /\ particleProps st = []
  /\ exists st', animate E P now st = Some (st', []) /\ particleProps st' = [].
Proof.
  intros Hzero Hreach. split; [|split].
  - rewrite mount_rows, Hzero. eexists. split; [reflexivity|]. by cbn.
  - destruct (reachable_shaped E P st Hreach) as (ps & -> & Hlen).
    rewrite Hzero in Hlen. by destruct ps.
  - destruct (reachable_shaped E P st Hreach) as (ps & Hbuf & Hlen).
    rewrite (animate_rows E P now st ps Hbuf Hlen).
    rewrite Hzero in Hlen. destruct ps; [|done]. cbn [sweep].
    by eexists.
Qed.

(** ** The field as the hero section mounts it *)


(** The texts of the hero section are never empty: a project that is missing,
    or whose title or subtitle is empty, gets the default text; a title or
    subtitle that is not empty is shown as it is.  The video is that of the
    project unless it is missing or empty. *)
Theorem hero_texts (robot : String.string) (project : option Project.t) :
  Hero.heroTitle project <> String.EmptyString
  /\ Hero.heroSubtitle project <> String.EmptyString
  /\ (robot <> String.EmptyString ->
      Hero.videoSrc robot project <> String.EmptyString)
  /\ (Hero.isProjectPage project = false ->
      Hero.heroTitle project = Hero.defaultHeroTitle
      /\ Hero.heroSubtitle project = Hero.defaultHeroSubtitle
      /\ Hero.videoSrc robot project = robot)
  /\ (forall p, project = Some p ->
      (Project.heroTitle p <> String.EmptyString ->
       Hero.heroTitle project = Project.heroTitle p)
      /\ (Project.heroSubtitle p <> String.EmptyString ->
          Hero.heroSubtitle project = Project.heroSubtitle p)
      /\ (Project.videoUrl p <> String.EmptyString ->
          Hero.videoSrc robot project = Project.videoUrl p)
      /\ (Project.heroTitle p = String.EmptyString ->
          Hero.heroTitle project = Hero.defaultHeroTitle)).
Proof.
  split; [|split; [|split; [|split]]].
  - destruct project as [p|]; [|discriminate]. cbn.
    by destruct (Project.heroTitle p).
  - destruct project as [p|]; [|discriminate]. cbn.
    by destruct (Project.heroSubtitle p).
  - intros Hrobot. destruct project as [p|]; [|exact Hrobot]. cbn.
    by destruct (Project.videoUrl p).
  - by destruct project.
  - intros p ->. cbn.
    destruct (Project.heroTitle p), (Project.heroSubtitle p), (Project.videoUrl p);
      cbn; by repeat split.
Qed.

(** ** The draw of a new target hue *)

(** A frame that comes 20000 ms or more after the last change of target
    draws a new target, a whole number of degrees from 0 to 359, from the
    first random number of the frame, before any respawn, and records its
    own time as the time of the last change; any other frame leaves the
    target and that time as they were. *)
Theorem target_redraw E P st now :
  env_ok E -> reachable E P st ->
  exists st' out,
    animate E P now st = Some (st', out)
    /\ ((20000 <= now - lastColorChangeRef st)%Z ->
        lastColorChangeRef st' = now
        /\ targetColorRef st'
           = inject_Z (Qfloor (Math_random E (randomCalls st) * 360))
        /\ 0 <= targetColorRef st' /\ targetColorRef st' <= 359)
    /\ ((now - lastColorChangeRef st < 20000)%Z ->
        lastColorChangeRef st' = lastColorChangeRef st
        /\ targetColorRef st' = targetColorRef st).
Proof.
  intros HE Hreach.
  destruct (animate_fields E P now st (reachable_shaped E P st Hreach))
    as (st' & out & Hrun & _ & Hlast & Htgt & _).
  exists st', out. split; [exact Hrun|]. split.
  - intros Hdue.
    assert (Hd : color_due now st = true).
    { unfold color_due, constants.COLOR_CHANGE_INTERVAL. lia. }
    rewrite Hd in Hlast, Htgt. split; [exact Hlast|]. split; [exact Htgt|].
    rewrite Htgt. apply (getNextColor_range E HE).
  - intros Hquiet. rewrite (color_due_false now st Hquiet) in Hlast, Htgt. by split.
Qed.

(** ** A call of initParticle on the flat buffer *)

(** [initParticle] fails exactly when fewer than nine cells are left from
    its offset on; otherwise it writes these nine cells and no other, keeps
    the length of the buffer and every other field of the state, and makes
    six random draws. *)
Theorem initParticle_frame E P i st :
  (initParticle E P i st = None <-> (length (particleProps st) < i + 9)%nat)
  /\ forall st', initParticle E P i st = Some st' ->
       length (particleProps st') = length (particleProps st)
       /\ (forall j, (j < i \/ i + 9 <= j)%nat ->
             particleProps st' !! j = particleProps st !! j)
       /\ randomCalls st' = (randomCalls st + 6)%nat
       /\ canvas_width st' = canvas_width st /\ canvas_height st' = canvas_height st
       /\ center st' = center st
       /\ colorTransitionRef st' = colorTransitionRef st
       /\ targetColorRef st' = targetColorRef st
       /\ lastColorChangeRef st' = lastColorChangeRef st
       /\ tick st' = tick st.
Proof.
  split.
  - unfold initParticle, typed_set. cbv zeta. cbn [length].
    case_decide as Hfit; cbn [mbind option_bind]; split; (done || lia).
  - intros st' Hinit. apply initParticle_inv in Hinit as [Hfit ->].
    cbn [particleProps canvas_width canvas_height center colorTransitionRef
         targetColorRef lastColorChangeRef tick randomCalls
         with_randomCalls with_particleProps].
    split; [apply length_inserts|]. split; [|by repeat split].
    intros j [Hj|Hj].
    + by apply list_lookup_inserts_lt.
    + apply list_lookup_inserts_ge. cbn [length row]. lia.
Qed.

(** * The further properties at concrete inputs *)

Lemma still_mounted_reachable : reachable (steady (1 # 2)) still still_mounted.
Proof. apply reachable_mounted. Qed.

Lemma still_mounted_slot : slot 0 still_mounted = Some newborn.
Proof. vm_compute. reflexivity. Qed.

Lemma respawn_exactly_when_witness :
  exists st' out,
    animate (steady (1 # 2)) still 16 still_mounted = Some (st', out)
    /\ (count_spawn (0 * 9) out <= 1)%nat.
Proof.
  destruct (respawn_exactly_when (steady (1 # 2)) still still_mounted 0 newborn 16)
    as (st' & out & Hrun & Hle & _).
  - exact still_mounted_reachable.
  - exact still_mounted_slot.
  - exists st', out. split; [exact Hrun|exact Hle].
Defined.



Lemma age_within_lifetime_witness :
  (exists n, p_life newborn == Qnat n)
  /\ 0 <= p_life newborn /\ p_life newborn <= p_ttl newborn.
Proof.
  apply (age_within_lifetime (steady (1 # 2)) still still_mounted 0 newborn).
  - exact steady_half_ok.
  - exact still_mounted_reachable.
  - vm_compute. reflexivity.
Defined.


Lemma frame_strokes_counted_witness :
  exists st' out,
    animate (steady (1 # 2)) still 16 still_mounted = Some (st', out)
    /\ count_strokes out = count_slots visible 1 still_mounted
    /\ (count_strokes out <= 1)%nat.
Proof.
  apply (frame_strokes_counted (steady (1 # 2)) still still_mounted 16).
  exact still_mounted_reachable.
Defined.

Lemma frame_calls_counted_witness :
  exists st' out,
    animate (steady (1 # 2)) still 20000 still_mounted = Some (st', out)
    /\ count_calls out = count_slots doomed 1 still_mounted
    /\ (count_calls out <= 1)%nat
    /\ randomCalls st'
       = (randomCalls still_mounted
          + (if color_due 20000 still_mounted then 1 else 0)
          + 6 * count_calls out)%nat.
Proof.
  apply (frame_calls_counted (steady (1 # 2)) still still_mounted 20000).
  exact still_mounted_reachable.
Defined.


Lemma run_bookkeeping_witness :
  exists st' outs,
    run (steady (1 # 2)) still [Frame 16; Resize 50 60; Frame 33] still_mounted
      = Some (st', outs)
    /\ tick st' = (tick still_mounted + 2)%Z
    /\ (canvas_width st', canvas_height st') = (50%N, 60%N).
Proof.
  destruct (run_bookkeeping (steady (1 # 2)) still still_mounted
              [Frame 16; Resize 50 60; Frame 33])
    as (st' & outs & Hrun & Htick & Hsize & _).
  - exact still_mounted_reachable.
  - exists st', outs. split; [exact Hrun|]. split; [exact Htick|exact Hsize].
Defined.

Lemma global_hue_range_witness :
  targetColorRef still_mounted = 220
  \/ exists z, (0 <= z <= 359)%Z /\ targetColorRef still_mounted = inject_Z z.
Proof.
  apply (global_hue_range (steady (1 # 2)) still still_mounted).
  - exact steady_half_ok.
  - exact still_mounted_reachable.
Defined.




Lemma position_after_frame_witness :
  exists st' out p',
    animate (steady (1 # 2)) scenario 16 (mounted (steady (1 # 2)) scenario 100 100 0)
      = Some (st', out)
    /\ slot 3 st' = Some p'
    /\ -50 - 1 <= p_x p' /\ p_x p' <= 100 + 50 + 1.
Proof.
  destruct (position_after_frame (steady (1 # 2)) scenario
              (mounted (steady (1 # 2)) scenario 100 100 0) 16 3 1)
    as (st' & out & p' & Hrun & Hslot & _ & _ & Hx & _).
  - exact steady_half_ok.
  - intros r Hr0 Hr1. cbn [scenario baseSpeed rangeSpeed].
    apply Qabs_Qle_condition. lra.
  - apply reachable_mounted.
  - cbn. lia.
  - exists st', out, p'. split; [exact Hrun|]. split; [exact Hslot|exact Hx].
Defined.

Lemma updateParticle_frame_witness :
  exists st' out,
    updateParticle (steady (1 # 2)) still 0 still_mounted = Some (st', out)
    /\ length (particleProps st') = length (particleProps still_mounted)
    /\ (length out <= 2)%nat.
Proof.
  destruct (updateParticle_frame (steady (1 # 2)) still 0 still_mounted)
    as (st' & out & Hrun & Hlen & H).
  - vm_compute. lia.
  - exists st', out. split; [exact Hrun|]. split; [exact Hlen|].
    apply H.
Defined.

Lemma stroke_provenance_witness :
  exists st' out,
    animate (steady (1 # 2)) still 16 still_mounted = Some (st', out).
Proof.
  destruct (stroke_provenance (steady (1 # 2)) still still_mounted 16)
    as (st' & out & Hrun & _).
  - exact steady_half_ok.
  - exact still_mounted_reachable.
  - exists st', out. exact Hrun.
Defined.

Lemma first_frame_blank_witness :
  exists st0 st' out,
    mount (steady (1 # 2)) scenario 100 100 0 = Some st0
    /\ animate (steady (1 # 2)) scenario 16 st0 = Some (st', out)
    /\ count_strokes out = 0%nat.
Proof.
  apply (first_frame_blank (steady (1 # 2)) scenario 100 100 0 16).
  exact steady_half_ok.
Defined.

Lemma empty_field_witness :
  particleProps (mounted (steady (1 # 2)) vacant 100 100 0) = []
  /\ exists st',
       animate (steady (1 # 2)) vacant 16 (mounted (steady (1 # 2)) vacant 100 100 0)
         = Some (st', [])
       /\ particleProps st' = [].
Proof.
  apply (empty_field (steady (1 # 2)) vacant
           (mounted (steady (1 # 2)) vacant 100 100 0) 100 100 0 16).
  - reflexivity.
  - apply reachable_mounted.
Defined.


Lemma target_redraw_witness :
  exists st' out,
    animate (steady (1 # 2)) still 20000 still_mounted = Some (st', out)
    /\ lastColorChangeRef st' = 20000%Z
    /\ 0 <= targetColorRef st' /\ targetColorRef st' <= 359.
Proof.
  destruct (target_redraw (steady (1 # 2)) still still_mounted 20000)
    as (st' & out & Hrun & Hdue & _).
  - exact steady_half_ok.
  - exact still_mounted_reachable.
  - exists st', out. split; [exact Hrun|].
    destruct Hdue as (Hlast & _ & Hrange); [vm_compute; discriminate|].
    split; [exact Hlast|exact Hrange].
Defined.

Lemma initParticle_frame_witness :
  length (particleProps still_mounted)
  = length (particleProps (resize 100 100 (allocate still 0)))
  /\ randomCalls still_mounted
     = (randomCalls (resize 100 100 (allocate still 0)) + 6)%nat.
Proof.
  destruct (proj2 (initParticle_frame (steady (1 # 2)) still 0
                     (resize 100 100 (allocate still 0))) still_mounted)
    as (Hlen & _ & Hcalls & _).
  - vm_compute. reflexivity.
  - split; [exact Hlen|exact Hcalls].
Defined.
